(** * polygon-edge: event tracker and SAM quorum pool

    A shallow embedding of
      - [rootchain/sampool/bucket.go] (the quorum pool), and
      - the polybft event tracker ([NewPolybftEventTracker], [trackBlock],
        [getNewState], [processLogs], [getLogsQuery]),
    followed by the properties of the specification that concern them. *)

From stdpp Require Import gmap strings list fin_maps.
From Stdlib Require Import ZArith Lia.

Open Scope Z_scope.

(* ===================================================================== *)
(** ** rootchain/sampool/bucket.go                                        *)
(* ===================================================================== *)

Module sampool.

(** [rootchain.SAM]: a signed message about a subject [Hash].  The
    signature is a byte sequence; [string(msg.Signature)] is the same
    sequence of bytes, so it is kept as a string here.  The remaining
    fields of the message are its payload. *)
Record SAM := mkSAM {
  Hash : Z;
  Signature : string;
  Payload : string
}.

(** [type samSet struct { messages []rootchain.SAM;
    signatures map[string]bool }] *)
Record samSet := mkSet {
  messages : list SAM;
  signatures : gmap string bool
}.

Definition newSet : samSet :=
  {| messages := []; signatures := ∅ |}.

(** Reading a Go [map[string]bool] at a missing key gives [false]. *)
Definition signed (s : samSet) (strSignature : string) : bool :=
  default false (signatures s !! strSignature).

(** [func (s *samSet) add(msg rootchain.SAM)] *)
Definition samSet_add (s : samSet) (msg : SAM) : samSet :=
  let strSignature := Signature msg in
  if signed s strSignature then s
  else {| messages := messages s ++ [msg];
          signatures := <[strSignature := true]> (signatures s) |}.

(** [func (s *samSet) get() []rootchain.SAM] *)
Definition get (s : samSet) : list SAM := messages s.

(** [type samBucket map[types.Hash]samSet] *)
Abbreviation samBucket := (gmap Z samSet).

Definition newBucket : samBucket := ∅.

(** [func (b samBucket) add(msg rootchain.SAM)] *)
Definition samBucket_add (b : samBucket) (msg : SAM) : samBucket :=
  let messages :=
    match b !! Hash msg with
    | Some messages => messages
    | None => newSet
    end in
  <[Hash msg := samSet_add messages msg]> b.

(** [type quorumFunc func(uint64) bool] *)
Definition quorumFunc := Z -> bool.

(** The body of the [for _, set := range b] loop of [getQuorumMessages],
    run over the sets in the order in which the range statement visits
    them.  [None] is the [nil] result. *)
Fixpoint scanQuorum (quorum : quorumFunc) (sets : list samSet)
  : option (list SAM) :=
  match sets with
  | [] => None
  | set :: rest =>
      let messages := get set in
      if quorum (Z.of_nat (length messages)) then Some messages
      else scanQuorum quorum rest
  end.

(** [func (b samBucket) getQuorumMessages(quorum quorumFunc) []rootchain.SAM].
    Go visits the entries of a map in an unspecified order: any
    enumeration [order] of the entries of [b] is a possible run. *)
Definition getQuorumMessages (b : samBucket) (quorum : quorumFunc)
    (r : option (list SAM)) : Prop :=
  ∃ order : list (Z * samSet),
    order ≡ₚ map_to_list b ∧ r = scanQuorum quorum (order.*2).

(** One run, in the enumeration order of the map library. *)
Definition getQuorumMessagesIn (b : samBucket) (quorum : quorumFunc)
  : option (list SAM) :=
  scanQuorum quorum ((map_to_list b).*2).

(** Adding a sequence of messages, one after the other. *)
Definition addAll (b : samBucket) (msgs : list SAM) : samBucket :=
  foldl samBucket_add b msgs.

(** The number of messages held for a subject (0 when there is none). *)
Definition count (b : samBucket) (subject : Z) : Z :=
  match b !! subject with
  | Some s => Z.of_nat (length (get s))
  | None => 0
  end.

(** The number of distinct signatures among the messages of a set. *)
Definition distinctSignatures (s : samSet) : Z :=
  Z.of_nat (size (list_to_set (Signature <$> messages s) : gset string)).

(** The invariant of a set built by [newSet] and [add]: the signature map
    records exactly the signatures of the stored messages, each once. *)
Definition set_wf (s : samSet) : Prop :=
  NoDup (Signature <$> messages s) ∧
  ∀ sig, signed s sig = true ↔ sig ∈ Signature <$> messages s.

Definition bucket_wf (b : samBucket) : Prop :=
  ∀ subject s, b !! subject = Some s → set_wf s.

(** The set held for a subject, [newSet] when there is none yet: the
    first three statements of [samBucket.add]. *)
Definition setOf (b : samBucket) (subject : Z) : samSet :=
  default newSet (b !! subject).

(** Three messages about subject 7 with pairwise distinct signatures,
    and a redelivery of the first one with another payload. *)
Definition threeSigners : list SAM :=
  [mkSAM 7 "sig-a" "event 1"; mkSAM 7 "sig-b" "event 1";
   mkSAM 7 "sig-c" "event 1"].

Definition redelivered : SAM := mkSAM 7 "sig-a" "event 1, again".

(** The messages of a list that [add] keeps when they are added in order
    to a set that already knows the signatures [seen]: the first message
    of every signature that is not in [seen]. *)
Fixpoint keepFirst (seen : list string) (msgs : list SAM) : list SAM :=
  match msgs with
  | [] => []
  | msg :: rest =>
      if bool_decide (Signature msg ∈ seen) then keepFirst seen rest
      else msg :: keepFirst (Signature msg :: seen) rest
  end.

Definition firstBySignature (msgs : list SAM) : list SAM :=
  keepFirst [] msgs.

(** The messages of a list that are about [subject]. *)
Definition about (subject : Z) (msgs : list SAM) : list SAM :=
  List.filter (λ msg, Hash msg =? subject) msgs.

End sampool.

(* ===================================================================== *)
(** ** The polybft event tracker                                          *)
(* ===================================================================== *)

Module polybft.

(** *** Machine integers *)

(** A Go [uint64] is a [Z] in [0, 2^64); arithmetic wraps around. *)
Definition u64 (z : Z) : Z := z mod 2 ^ 64.

Definition is_u64 (z : Z) : Prop := 0 <= z < 2 ^ 64.

(** [ethgo.BlockNumber(j)]: [BlockNumber] is a signed 64-bit [int]. *)
Definition toBlockNumber (j : Z) : Z :=
  if j <? 2 ^ 63 then j else j - 2 ^ 64.

(** *** Data of the tracked chain *)

(** A Go [error] value, kept by its message. *)
Definition error := string.

(** The result of a call that returns [(value, error)]. *)
Inductive result (A : Type) :=
| Ok (a : A)
| Fail (err : error).
Arguments Ok {A} a.
Arguments Fail {A} err.

(** What running a function that returns [error] ends with: [nil], an
    error, or a run-time panic (an index out of range). *)
Inductive outcome :=
| Nil
| Err (err : error)
| Panic.

(** [ethgo.Block], the header fields. *)
Record Block := mkBlock {
  Number : Z;
  Hash : Z;
  ParentHash : Z;
  Timestamp : Z
}.

(** [ethgo.Log]: the emitting contract, the topics, and the rest. *)
Record Log := mkLog {
  Address : Z;
  Topics : list Z;
  Data : string
}.

(** [ethgo.LogFilter] as [getLogsQuery] fills it.  The addresses are
    collected by ranging over a map, in no particular order. *)
Record LogFilterQuery := mkQuery {
  QAddress : gset Z;
  QFrom : Z;
  QTo : Z
}.

(** *** The block container (confirmation window) *)

(** Modelled from the spec: the [TrackerBlockContainer] type, which the
    tracker uses and which is declared in another file of the package.
    The window holds the [lastProcessed] watermark, the ordered [cache]
    of header records and [lastCached], the highest block number in the
    cache, equal to [lastProcessed] when the cache is empty. *)
Record TrackerBlockContainer := mkContainer {
  lastProcessed : Z;
  cache : list Block;
  lastCached : Z
}.

(** Modelled from the spec: [reset(baseline)] clears the cache entirely
    and sets [lastCached = lastProcessed = baseline]. *)
Definition reset (baseline : Z) : TrackerBlockContainer :=
  {| lastProcessed := baseline; cache := []; lastCached := baseline |}.

(** Modelled from the spec: [NewTrackerBlockContainer], the window seeded
    with the watermark: an empty cache above [lastProcessed]. *)
Definition NewTrackerBlockContainer (lastProcessed : Z)
  : TrackerBlockContainer :=
  reset lastProcessed.

(** Modelled from the spec: [LastProcessedBlock] (and its [Locked]
    variant) read the watermark held by the window. *)
Definition LastProcessedBlock (c : TrackerBlockContainer) : Z :=
  lastProcessed c.

(** Modelled from the spec: [LastCachedBlock] reads [lastCached]. *)
Definition LastCachedBlock (c : TrackerBlockContainer) : Z :=
  lastCached c.

(** Modelled from the spec: [IsOutOfSync] is [classify(block)], which
    returns OutOfSync if [block.number ≠ lastCached + 1] and Sequential
    otherwise. *)
Definition IsOutOfSync (c : TrackerBlockContainer) (block : Block) : bool :=
  negb (Number block =? lastCached c + 1).

(** Modelled from the spec: [AddBlock] is [append(block)], which adds the
    header to the cache and advances [lastCached]; it is a no-op, not an
    error, if [block.number ≤ lastCached]. *)
Definition AddBlock (c : TrackerBlockContainer) (block : Block)
  : TrackerBlockContainer :=
  if Number block <=? lastCached c then c
  else {| lastProcessed := lastProcessed c;
          cache := cache c ++ [block];
          lastCached := Number block |}.

(** Modelled from the spec: a block number is confirmed when
    [lastCached − number ≥ confirmations]. *)
Definition confirmed (c : TrackerBlockContainer) (confirmations n : Z)
  : bool :=
  confirmations <=? lastCached c - n.

Fixpoint takeConfirmed (c : TrackerBlockContainer) (confirmations : Z)
    (numbers : list Z) : list Z :=
  match numbers with
  | [] => []
  | n :: rest =>
      if confirmed c confirmations n
      then n :: takeConfirmed c confirmations rest
      else []
  end.

(** Modelled from the spec: [GetConfirmedBlocks] is
    [confirmedRange(confirmations)], the contiguous prefix of cached
    numbers that are all confirmed; the empty list is the "none" ([nil])
    answer. *)
Definition GetConfirmedBlocks (c : TrackerBlockContainer)
    (confirmations : Z) : list Z :=
  takeConfirmed c confirmations (Number <$> cache c).

(** The block numbers [from, from+1, ..., to]. *)
Definition blockRange (from to : Z) : list Z :=
  seqZ from (to - from + 1).

(** Modelled from the spec: [RemoveBlocks] is [evict(from, to)], which
    removes [[from, to]] from the cache and sets [lastProcessed = to]; it
    fails, without mutating anything, if the range is not a prefix of
    the current cache. *)
Definition RemoveBlocks (c : TrackerBlockContainer) (from to : Z)
  : result TrackerBlockContainer :=
  let range := blockRange from to in
  if bool_decide (take (length range) (Number <$> cache c) = range)
  then Ok {| lastProcessed := to;
             cache := drop (length range) (cache c);
             lastCached := lastCached c |}
  else Fail "range is not a prefix of the cached blocks".

(** Modelled from the spec: [CleanState] is the [reset] of the resync
    procedure: the unconfirmed cache is discarded and the window falls
    back to the watermark. *)
Definition CleanState (c : TrackerBlockContainer) : TrackerBlockContainer :=
  reset (lastProcessed c).

(** *** Configuration and collaborators *)

(** [PolybftTrackerConfig], the fields that drive the tracker.  The
    endpoint, the poll interval and the logger play no part here. *)
Record PolybftTrackerConfig := mkConfig {
  StartBlockFromConfig : Z;
  NumBlockConfirmations : Z;
  SyncBatchSize : Z;
  MaxBacklogSize : Z;
  LogFilter : gmap Z (list Z)
}.

(** [BlockProvider]: an RPC node, with a state of its own. *)
Class BlockProvider (P : Type) := {
  GetBlockByNumber : Z -> P -> result Block * P;
  GetLogs : LogFilterQuery -> P -> result (list Log) * P
}.

(** [EventTrackerStore]: the durable store; a write returns its error,
    if any. *)
Class EventTrackerStore (S : Type) := {
  GetLastProcessedBlock : S -> result Z * S;
  InsertLastProcessedBlock : Z -> S -> option error * S;
  InsertLogs : list Log -> S -> option error * S
}.

(** [edgeTracker.EventSubscription]: the consumer of the events. *)
Class EventSubscription (E : Type) := {
  AddLog : Log -> E -> E
}.

(** The calls the tracker makes, in the order it makes them; the flag
    tells whether the call returned without error. *)
Inductive Call :=
| CallGetBlockByNumber (number : Z) (ok : bool)
| CallGetLogs (query : LogFilterQuery) (ok : bool)
| CallAddLog (log : Log)
| CallInsertLastProcessedBlock (number : Z) (ok : bool)
| CallInsertLogs (logs : list Log) (ok : bool)
| CallCleanState
| CallAddBlock (block : Block)
| CallRemoveBlocks (from to : Z) (ok : bool).

#[global] Instance Block_eq_dec : EqDecision Block.
Proof. solve_decision. Defined.
#[global] Instance Log_eq_dec : EqDecision Log.
Proof. solve_decision. Defined.
#[global] Instance LogFilterQuery_eq_dec : EqDecision LogFilterQuery.
Proof. solve_decision. Defined.
#[global] Instance Call_eq_dec : EqDecision Call.
Proof. solve_decision. Defined.

(** *** The tracker *)

Section Tracker.
Context {P St Sub : Type}.
Context `{!BlockProvider P, !EventTrackerStore St, !EventSubscription Sub}.

(** [PolybftEventTracker]: the configuration, the block container, the
    collaborators the configuration points to, and the calls made so
    far.  The lock of the container only matters between goroutines
    and is not modelled: each function below runs alone. *)
Record PolybftEventTracker := mkTracker {
  config : PolybftTrackerConfig;
  blockContainer : TrackerBlockContainer;
  provider : P;
  store : St;
  subscriber : Sub;
  calls : list Call
}.

Definition withContainer (p : PolybftEventTracker)
    (c : TrackerBlockContainer) (call : Call) : PolybftEventTracker :=
  {| config := config p; blockContainer := c; provider := provider p;
     store := store p; subscriber := subscriber p;
     calls := calls p ++ [call] |}.

Definition withProvider (p : PolybftEventTracker) (pr : P) (call : Call)
  : PolybftEventTracker :=
  {| config := config p; blockContainer := blockContainer p;
     provider := pr; store := store p; subscriber := subscriber p;
     calls := calls p ++ [call] |}.

Definition withStore (p : PolybftEventTracker) (st : St) (call : Call)
  : PolybftEventTracker :=
  {| config := config p; blockContainer := blockContainer p;
     provider := provider p; store := st; subscriber := subscriber p;
     calls := calls p ++ [call] |}.

Definition withSubscriber (p : PolybftEventTracker) (sub : Sub) (call : Call)
  : PolybftEventTracker :=
  {| config := config p; blockContainer := blockContainer p;
     provider := provider p; store := store p; subscriber := sub;
     calls := calls p ++ [call] |}.

(** [p.blockContainer.AddBlock(block)] *)
Definition addBlock (p : PolybftEventTracker) (block : Block)
  : PolybftEventTracker :=
  withContainer p (AddBlock (blockContainer p) block) (CallAddBlock block).

(** [NewPolybftEventTracker]: [Fail] when the store cannot be read. *)
Definition NewPolybftEventTracker (cfg : PolybftTrackerConfig)
    (pr : P) (st : St) (sub : Sub) : result PolybftEventTracker :=
  match GetLastProcessedBlock st with
  | (Fail err, _) => Fail err
  | (Ok lastProcessedBlock, st') =>
      let definiteLastProcessedBlock :=
        if StartBlockFromConfig cfg >? 0
        then u64 (StartBlockFromConfig cfg - 1)
        else 0 in
      let definiteLastProcessedBlock :=
        if lastProcessedBlock >? definiteLastProcessedBlock
        then lastProcessedBlock
        else definiteLastProcessedBlock in
      Ok {| config := cfg;
            blockContainer :=
              NewTrackerBlockContainer definiteLastProcessedBlock;
            provider := pr; store := st'; subscriber := sub;
            calls := [] |}
  end.

(** [getLogsQuery] *)
Definition getLogsQuery (p : PolybftEventTracker) (from to : Z)
  : LogFilterQuery :=
  {| QAddress := dom (LogFilter (config p)); QFrom := from; QTo := to |}.

(** The inner loop of the filter, [for _, id := range logIDs]: does
    [log.Topics[0]] equal one of the ids?  [None] is the panic of
    indexing an empty [Topics]. *)
Fixpoint matchTopic (log : Log) (logIDs : list Z) : option bool :=
  match logIDs with
  | [] => Some false
  | id :: rest =>
      match Topics log with
      | [] => None
      | topic0 :: _ =>
          if topic0 =? id then Some true else matchTopic log rest
      end
  end.

(** The filter loop of [processLogs], [for _, log := range logs]: the
    logs kept so far and the tracker are threaded through; [None] is
    a panic, after the calls made before it. *)
Fixpoint filterLogs (logs filteredLogs : list Log)
    (p : PolybftEventTracker)
  : option (list Log) * PolybftEventTracker :=
  match logs with
  | [] => (Some filteredLogs, p)
  | log :: rest =>
      match LogFilter (config p) !! Address log with
      | None => filterLogs rest filteredLogs p
      | Some logIDs =>
          match matchTopic log logIDs with
          | None => (None, p)
          | Some true =>
              filterLogs rest (filteredLogs ++ [log])
                (withSubscriber p (AddLog log (subscriber p))
                   (CallAddLog log))
          | Some false => filterLogs rest filteredLogs p
          end
      end
  end.

(** [processLogs] *)
Definition processLogs (p : PolybftEventTracker)
  : outcome * PolybftEventTracker :=
  let confirmedBlocks :=
    GetConfirmedBlocks (blockContainer p)
      (NumBlockConfirmations (config p)) in
  match confirmedBlocks with
  | [] => (Nil, p)
  | fromBlock :: _ =>
      let toBlock := default fromBlock (last confirmedBlocks) in
      let query := getLogsQuery p fromBlock toBlock in
      match GetLogs query (provider p) with
      | (Fail err, pr) => (Err err, withProvider p pr (CallGetLogs query false))
      | (Ok logs, pr) =>
          match filterLogs logs []
                  (withProvider p pr (CallGetLogs query true)) with
          | (None, p1) => (Panic, p1)
          | (Some filteredLogs, p1) =>
              match InsertLastProcessedBlock toBlock (store p1) with
              | (Some err, st) =>
                  (Err err,
                   withStore p1 st
                     (CallInsertLastProcessedBlock toBlock false))
              | (None, st) =>
                  let p2 := withStore p1 st
                      (CallInsertLastProcessedBlock toBlock true) in
                  match InsertLogs filteredLogs (store p2) with
                  | (Some err, st') =>
                      (Err err,
                       withStore p2 st' (CallInsertLogs filteredLogs false))
                  | (None, st') =>
                      let p3 := withStore p2 st'
                          (CallInsertLogs filteredLogs true) in
                      match RemoveBlocks (blockContainer p3)
                              fromBlock toBlock with
                      | Fail err =>
                          (Err ("could not remove processed blocks. Err: "
                                +:+ err),
                           withContainer p3 (blockContainer p3)
                             (CallRemoveBlocks fromBlock toBlock false))
                      | Ok c =>
                          (Nil,
                           withContainer p3 c
                             (CallRemoveBlocks fromBlock toBlock true))
                      end
                  end
              end
          end
      end
  end.

(** The start of the resync, lines 286-292 of [getNewState]. *)
Definition startBlockOf (lastProcessedBlock latestNumber maxBacklogSize : Z)
  : Z :=
  let startBlock := u64 (lastProcessedBlock + 1) in
  if (latestNumber >? maxBacklogSize)
     && (u64 (latestNumber - maxBacklogSize) >? lastProcessedBlock)
  then u64 (latestNumber - maxBacklogSize)
  else startBlock.

(** The inner loop of [getNewState], [for j := i; j < end; j++], which
    runs [end - i] times when [i < end] and not at all otherwise; [j]
    stays below [end], so [j++] never wraps. *)
Fixpoint fetchBlocks (n : nat) (j : Z) (p : PolybftEventTracker)
  : outcome * PolybftEventTracker :=
  match n with
  | O => (Nil, p)
  | S n' =>
      match GetBlockByNumber (toBlockNumber j) (provider p) with
      | (Fail err, pr) =>
          (Err err, withProvider p pr (CallGetBlockByNumber j false))
      | (Ok block, pr) =>
          fetchBlocks n' (j + 1)
            (addBlock (withProvider p pr (CallGetBlockByNumber j true))
               block)
      end
  end.

(** The batch loop of [getNewState],
    [for i := startBlock; i <= latestBlock.Number; i += SyncBatchSize].
    The loop need not end (a batch size of 0), so it runs on [fuel]:
    [None] means the fuel ran out. *)
Fixpoint syncBatches (fuel : nat) (i : Z) (latestBlock : Block)
    (p : PolybftEventTracker)
  : option (outcome * PolybftEventTracker) :=
  match fuel with
  | O => None
  | S fuel' =>
      if i <=? Number latestBlock then
        let batch := SyncBatchSize (config p) in
        let end_ := u64 (i + batch) in
        let end_ :=
          if end_ >? Number latestBlock
          then u64 (Number latestBlock - 1)
          else end_ in
        match fetchBlocks (Z.to_nat (end_ - i)) i p with
        | (Nil, p1) =>
            match processLogs p1 with
            | (Nil, p2) => syncBatches fuel' (u64 (i + batch)) latestBlock p2
            | r => Some r
            end
        | r => Some r
        end
      else Some (Nil, p)
  end.

(** [getNewState] *)
Definition getNewState (fuel : nat) (p : PolybftEventTracker)
    (latestBlock : Block) : option (outcome * PolybftEventTracker) :=
  let lastProcessedBlock := LastProcessedBlock (blockContainer p) in
  let p := withContainer p (CleanState (blockContainer p)) CallCleanState in
  let startBlock :=
    startBlockOf lastProcessedBlock (Number latestBlock)
      (MaxBacklogSize (config p)) in
  match syncBatches fuel startBlock latestBlock p with
  | None => None
  | Some (Nil, p1) => Some (processLogs (addBlock p1 latestBlock))
  | Some r => Some r
  end.

(** [trackBlock] *)
Definition trackBlock (fuel : nat) (p : PolybftEventTracker)
    (block : Block) : option (outcome * PolybftEventTracker) :=
  if negb (IsOutOfSync (blockContainer p) block) then
    let p :=
      if LastCachedBlock (blockContainer p) <? Number block
      then addBlock p block
      else p in
    Some (processLogs p)
  else getNewState fuel p block.

(** *** Vocabulary of the properties *)

(** Handing a list of logs to the subscriber, one [AddLog] each. *)
Definition forwardAll (p : PolybftEventTracker) (logs : list Log)
  : PolybftEventTracker :=
  foldl (λ p log,
           withSubscriber p (AddLog log (subscriber p)) (CallAddLog log))
    p logs.

(** The provider answers a request for a block below [bound] with a
    header of that number. *)
Definition servesRequested (bound : Z) : Prop :=
  ∀ j (pr pr' : P) block,
    0 <= j < bound →
    GetBlockByNumber (toBlockNumber j) pr = (Ok block, pr') →
    Number block = j.

End Tracker.

Arguments PolybftEventTracker : clear implicits.

(** *** Startup *)

Section Startup.
Context {P St Sub : Type}.
Context `{!BlockProvider P, !EventTrackerStore St, !EventSubscription Sub}.

(** The tracker together with its [once sync.Once] field: [onceDone]
    tells whether [once.Do] has already run its function. *)
Record Supervised := mkSupervised {
  eventTracker : PolybftEventTracker P St Sub;
  onceDone : bool
}.

(** [syncOnStart].  [Latest] is the tag [ethgo.Latest] under which the
    provider is asked for the newest block.  The function passed to
    [once.Do] runs on the first call only, and [once] counts it as run
    however it ends; [err] is nil when it does not run. *)
Definition syncOnStart (Latest : Z) (fuel : nat) (s : Supervised)
  : option (outcome * Supervised) :=
  if onceDone s then Some (Nil, s)
  else
    let p := eventTracker s in
    match GetBlockByNumber Latest (provider p) with
    | (Fail err, pr) =>
        Some (Err err,
              mkSupervised
                (withProvider p pr (CallGetBlockByNumber Latest false)) true)
    | (Ok latestBlock, pr) =>
        let p := withProvider p pr (CallGetBlockByNumber Latest true) in
        if negb (IsOutOfSync (blockContainer p) latestBlock)
        then Some (Nil, mkSupervised p true)
        else
          match getNewState fuel p latestBlock with
          | None => None
          | Some (o, p') => Some (o, mkSupervised p' true)
          end
    end.

End Startup.

Arguments Supervised : clear implicits.

(** *** Vocabulary of the further properties *)

(** The block numbers asked of the provider, in the order of the calls. *)
Fixpoint requests (calls : list Call) : list Z :=
  match calls with
  | [] => []
  | CallGetBlockByNumber number _ :: rest => number :: requests rest
  | _ :: rest => requests rest
  end.

(** The blocks a resync from [startBlock] asks for when the latest block
    is [latest] and the batches hold [batch] blocks: all the blocks from
    [startBlock] up to [latest - 1] when [latest - startBlock] is a
    multiple of [batch], and up to [latest - 2] only when it is not. *)
Definition fetchSchedule (startBlock latest batch : Z) : list Z :=
  if startBlock >? latest then []
  else if (latest - startBlock) mod batch =? 0
  then seqZ startBlock (latest - startBlock)
  else seqZ startBlock (latest - startBlock - 1).

(** A log is accepted when its address is a key of the filter table and
    its primary topic is one of the hashes accepted for that address. *)
Definition accepted (table : gmap Z (list Z)) (log : Log) : bool :=
  match table !! Address log, Topics log with
  | Some logIDs, topic0 :: _ => bool_decide (topic0 ∈ logIDs)
  | _, _ => false
  end.

(** A log on which [log.Topics[0]] is evaluated although [Topics] is
    empty: it comes from an address of the table that has at least one
    accepted hash, and it has no topic. *)
Definition indexesEmptyTopics (table : gmap Z (list Z)) (log : Log) : bool :=
  match table !! Address log, Topics log with
  | Some (_ :: _), [] => true
  | _, _ => false
  end.

(** The range a pass works on: the first and the last confirmed block. *)
Definition rangeEnd (from : Z) (rest : list Z) : Z :=
  default from (last (from :: rest)).

(** How a pass that got as far as the filter can end, as the calls
    [tail] made after the forwarding, the container [c'] it leaves and
    its outcome [o]: nothing more (the fetch failed or the filter
    panicked), a failed watermark write, a failed log write, a failed
    eviction, or all three done. *)
Definition writePhase (from to : Z) (kept : list Log)
    (c c' : TrackerBlockContainer) (o : outcome) (tail : list Call)
  : Prop :=
  (tail = [] ∧ c' = c ∧ o ≠ Nil)
  ∨ (tail = [CallInsertLastProcessedBlock to false] ∧ c' = c ∧ o ≠ Nil)
  ∨ (tail = [CallInsertLastProcessedBlock to true;
             CallInsertLogs kept false] ∧ c' = c ∧ o ≠ Nil)
  ∨ (tail = [CallInsertLastProcessedBlock to true;
             CallInsertLogs kept true;
             CallRemoveBlocks from to false] ∧ c' = c ∧ o ≠ Nil)
  ∨ (tail = [CallInsertLastProcessedBlock to true;
             CallInsertLogs kept true;
             CallRemoveBlocks from to true]
     ∧ RemoveBlocks c from to = Ok c' ∧ o = Nil).

(** The calls that write to the store or evict from the window. *)
Definition isWrite (call : Call) : Prop :=
  match call with
  | CallInsertLastProcessedBlock _ _
  | CallInsertLogs _ _
  | CallRemoveBlocks _ _ _ => True
  | _ => False
  end.

(** *** Test doubles for the collaborators *)

(** The header numbered [n] of a chain whose hashes are its numbers. *)
Definition header (n : Z) : Block := mkBlock n n (n - 1) 0.

(** An RPC node that serves block [n] as the header numbered [n], fails
    on the block numbers listed in [downFor], and answers every log
    query with [nodeLogs], or with an error when [logsDown] is set. *)
Record TestNode := mkNode {
  downFor : list Z;
  nodeLogs : list Log;
  logsDown : bool
}.

#[global] Instance TestNode_provider : BlockProvider TestNode := {
  GetBlockByNumber n node :=
    (if bool_decide (n ∈ downFor node) then Fail "rpc: block unavailable"
     else Ok (header n), node);
  GetLogs _ node :=
    (if logsDown node then Fail "rpc: logs unavailable"
     else Ok (nodeLogs node), node)
}.

(** A store in memory whose writes can be made to fail. *)
Record MemStore := mkStore {
  watermark : Z;
  savedLogs : list Log;
  watermarkDown : bool;
  logsWriteDown : bool
}.

#[global] Instance MemStore_store : EventTrackerStore MemStore := {
  GetLastProcessedBlock st := (Ok (watermark st), st);
  InsertLastProcessedBlock n st :=
    if watermarkDown st then (Some "store: watermark write failed", st)
    else (None, mkStore n (savedLogs st) (watermarkDown st) (logsWriteDown st));
  InsertLogs logs st :=
    if logsWriteDown st then (Some "store: log write failed", st)
    else (None, mkStore (watermark st) (savedLogs st ++ logs)
                  (watermarkDown st) (logsWriteDown st))
}.

(** A subscriber that keeps what it is given. *)
#[global] Instance Inbox_subscriber : EventSubscription (list Log) := {
  AddLog log inbox := inbox ++ [log]
}.

Definition TestTracker := PolybftEventTracker TestNode MemStore (list Log).

Definition testTracker (cfg : PolybftTrackerConfig)
    (c : TrackerBlockContainer) (node : TestNode) (st : MemStore)
  : TestTracker :=
  mkTracker cfg c node st [] [].

(** *** Sample runs *)

(** Two contracts are tracked: 100 with the events 7 and 8, and 200 with
    the event 9. *)
Definition sampleFilter : gmap Z (list Z) :=
  {[ 100 := [7; 8]; 200 := [9] ]}.

(** Two confirmations, batches of 10 blocks, a backlog of 10000. *)
Definition sampleConfig : PolybftTrackerConfig :=
  mkConfig 0 2 10 10000 sampleFilter.

(** Blocks 1 to 5 are cached above the watermark 0: with two
    confirmations the confirmed range is [1, 3]. *)
Definition sampleWindow : TrackerBlockContainer :=
  mkContainer 0 (header <$> [1; 2; 3; 4; 5]) 5.

(** Logs of the confirmed range: accepted ones, one from the unlisted
    address 300 whose topic 9 is accepted for 200 only, and one from 100
    with the topic of 200. *)
Definition sampleLogs : list Log :=
  [mkLog 100 [7] "a"; mkLog 300 [9] "b"; mkLog 200 [9; 1] "c";
   mkLog 100 [9] "d"; mkLog 100 [8] "e"].

Definition sampleTracker : TestTracker :=
  testTracker sampleConfig sampleWindow
    (mkNode [] sampleLogs false) (mkStore 0 [] false false).

(** The same tracker in front of a node that fails to return logs. *)
Definition logsDownTracker : TestTracker :=
  testTracker sampleConfig sampleWindow
    (mkNode [] sampleLogs true) (mkStore 0 [] false false).

(** The same tracker when the node returns a log without topics from
    the tracked contract 100, before an accepted one. *)
Definition noTopicTracker : TestTracker :=
  testTracker sampleConfig sampleWindow
    (mkNode [] [mkLog 100 [] "anonymous"; mkLog 100 [7] "a"] false)
    (mkStore 0 [] false false).

(** The same tracker over a store that loses the log write. *)
Definition logsWriteDownTracker : TestTracker :=
  testTracker sampleConfig sampleWindow
    (mkNode [] sampleLogs false) (mkStore 0 [] false true).

(** The example of the documentation of [SyncBatchSize]: batches of 10,
    the last processed block is 10, the latest block of the chain is
    100.  Nothing is confirmed during the resync (1000 confirmations),
    so that the cache shows every block that was added. *)
Definition resyncTracker : TestTracker :=
  testTracker (mkConfig 0 1000 10 10000 ∅) (NewTrackerBlockContainer 10)
    (mkNode [] [] false) (mkStore 10 [] false false).

(** A window that cached the blocks 1, 2, 3 above the watermark 0, in
    front of a healthy node and of a node that cannot serve block 1. *)
Definition cachedThree : TestTracker :=
  testTracker (mkConfig 0 1000 10 10000 ∅)
    (mkContainer 0 (header <$> [1; 2; 3]) 3)
    (mkNode [] [] false) (mkStore 0 [] false false).


(** A tracker that was offline for long: watermark 5, backlog 10000. *)
Definition staleTracker : TestTracker :=
  testTracker (mkConfig 0 2 10 10000 ∅) (NewTrackerBlockContainer 5)
    (mkNode [] [] false) (mkStore 5 [] false false).

(** The sample tracker over a store that refuses the watermark. *)
Definition watermarkDownTracker : TestTracker :=
  testTracker sampleConfig sampleWindow
    (mkNode [] sampleLogs false) (mkStore 0 [] true false).

(** A tracker configured with a batch size of 0. *)
Definition zeroBatchTracker : TestTracker :=
  testTracker (mkConfig 0 2 0 10000 ∅) (NewTrackerBlockContainer 5)
    (mkNode [] [] false) (mkStore 5 [] false false).

(** An RPC node of a chain whose newest block is [chainHead]: it serves
    that block under the tag -1 and block [n] under the number [n]; its
    log queries fail when [chainLogsDown] is set. *)
Record ChainNode := mkChain {
  chainHead : Z;
  chainLogsDown : bool
}.

#[global] Instance ChainNode_provider : BlockProvider ChainNode := {
  GetBlockByNumber n node :=
    (Ok (header (if n =? -1 then chainHead node else n)), node);
  GetLogs _ node :=
    (if chainLogsDown node then Fail "rpc: logs unavailable" else Ok [],
     node)
}.

(** A tracker that starts with the watermark 0 and an empty window, in
    front of a chain at block 3, before its first [syncOnStart]. *)
Definition startingUp : Supervised ChainNode MemStore (list Log) :=
  mkSupervised
    (mkTracker (mkConfig 0 1000 10 10000 ∅) (NewTrackerBlockContainer 0)
       (mkChain 3 false) (mkStore 0 [] false false) [] [])
    false.

End polybft.

(* ===================================================================== *)
(** ** Properties of the quorum pool                                      *)
(* ===================================================================== *)

Module SampoolFacts.
Import sampool.

Lemma samBucket_add_unfold b msg :
  samBucket_add b msg
  = <[Hash msg := samSet_add (setOf b (Hash msg)) msg]> b.
Proof.
  unfold samBucket_add, setOf. by destruct (b !! Hash msg).
Qed.

Lemma setOf_add_same b msg :
  setOf (samBucket_add b msg) (Hash msg)
  = samSet_add (setOf b (Hash msg)) msg.
Proof.
  rewrite samBucket_add_unfold. unfold setOf at 1.
  by rewrite lookup_insert_eq.
Qed.

Lemma setOf_add_other b msg subject :
  Hash msg ≠ subject →
  setOf (samBucket_add b msg) subject = setOf b subject.
Proof.
  intros Hne. rewrite samBucket_add_unfold. unfold setOf.
  by rewrite lookup_insert_ne.
Qed.

Lemma lookup_add_same b msg :
  samBucket_add b msg !! Hash msg
  = Some (samSet_add (setOf b (Hash msg)) msg).
Proof. rewrite samBucket_add_unfold. apply lookup_insert_eq. Qed.

Lemma count_setOf b subject :
  count b subject = Z.of_nat (length (messages (setOf b subject))).
Proof. unfold count, setOf, get. by destruct (b !! subject). Qed.

(** *** One set *)

Lemma signed_insert s sig sig' :
  default false (<[sig := true]> (signatures s) !! sig')
  = if decide (sig = sig') then true else signed s sig'.
Proof.
  unfold signed. rewrite lookup_insert. by case_decide.
Qed.

Lemma signed_after_add s msg :
  signed (samSet_add s msg) (Signature msg) = true.
Proof.
  unfold samSet_add. destruct (signed s (Signature msg)) eqn:Hs; [done |].
  unfold signed at 1. cbn. rewrite signed_insert. by case_decide.
Qed.

Lemma samSet_add_signed s msg :
  signed s (Signature msg) = true → samSet_add s msg = s.
Proof. intros Hs. unfold samSet_add. by rewrite Hs. Qed.

Lemma samSet_add_fresh s msg :
  signed s (Signature msg) = false →
  messages (samSet_add s msg) = messages s ++ [msg].
Proof. intros Hs. unfold samSet_add. by rewrite Hs. Qed.

Lemma set_wf_new : set_wf newSet.
Proof.
  split; [constructor |].
  intros sig. unfold signed. cbn. rewrite lookup_empty. cbn.
  split; [done |]. by intros ?%elem_of_nil.
Qed.

Lemma set_wf_add s msg : set_wf s → set_wf (samSet_add s msg).
Proof.
  intros [Hnd Hsig]. unfold samSet_add.
  destruct (signed s (Signature msg)) eqn:Hs; [done |].
  split; cbn.
  - rewrite fmap_app. apply NoDup_app. split; [done |]. split.
    + intros sig Hin Hin'. cbn in Hin'.
      apply list_elem_of_singleton in Hin'. subst sig.
      apply Hsig in Hin. congruence.
    + cbn. apply NoDup_singleton.
  - intros sig. unfold signed at 1. cbn. rewrite signed_insert.
    rewrite fmap_app, elem_of_app. cbn. rewrite list_elem_of_singleton.
    case_decide; [intuition congruence |].
    rewrite Hsig. intuition congruence.
Qed.

Lemma set_wf_count s :
  set_wf s → Z.of_nat (length (get s)) = distinctSignatures s.
Proof.
  intros [Hnd _]. unfold distinctSignatures, get. f_equal.
  rewrite size_list_to_set by done. by rewrite length_fmap.
Qed.

(** Adding messages whose signatures are new and pairwise distinct
    appends all of them. *)
Lemma foldl_add_fresh msgs : ∀ s,
  set_wf s →
  NoDup (Signature <$> msgs) →
  (∀ m, m ∈ msgs → signed s (Signature m) = false) →
  messages (foldl samSet_add s msgs) = messages s ++ msgs.
Proof.
  induction msgs as [| m msgs IH]; intros s Hwf Hnd Hfresh; cbn.
  - by rewrite app_nil_r.
  - cbn in Hnd. apply NoDup_cons in Hnd as [Hm Hnd].
    assert (Hs : signed s (Signature m) = false)
      by (apply Hfresh; left).
    rewrite IH; [| by apply set_wf_add | done |].
    + rewrite samSet_add_fresh by done. by rewrite <- app_assoc.
    + intros m' Hin. apply not_true_iff_false. intros Habs.
      apply (set_wf_add s m Hwf) in Habs.
      rewrite samSet_add_fresh in Habs by done.
      rewrite fmap_app, elem_of_app in Habs. cbn in Habs.
      rewrite list_elem_of_singleton in Habs.
      destruct Habs as [Habs | Habs].
      * destruct Hwf as [_ Hsig]. apply Hsig in Habs.
        rewrite (Hfresh m') in Habs; [done | by right].
      * apply Hm. rewrite <- Habs. by apply list_elem_of_fmap_2.
Qed.

(** *** The bucket *)

Lemma setOf_addAll msgs : ∀ b subject,
  Forall (λ m, Hash m = subject) msgs →
  setOf (addAll b msgs) subject = foldl samSet_add (setOf b subject) msgs.
Proof.
  unfold addAll.
  induction msgs as [| m msgs IH]; intros b subject Hall; cbn; [done |].
  apply Forall_cons in Hall as [Hm Hall].
  rewrite IH by done. by rewrite <- Hm, setOf_add_same.
Qed.

Lemma lookup_addAll_nonempty msgs : ∀ b subject,
  msgs ≠ [] →
  Forall (λ m, Hash m = subject) msgs →
  addAll b msgs !! subject = Some (setOf (addAll b msgs) subject).
Proof.
  unfold addAll.
  induction msgs as [| m msgs IH] using rev_ind; intros b subject Hne Hall;
    [done |].
  rewrite foldl_app. cbn.
  apply Forall_app in Hall as [_ Hm%Forall_inv]. cbn in Hm.
  rewrite <- Hm. by rewrite setOf_add_same, lookup_add_same.
Qed.

Lemma bucket_wf_new : bucket_wf newBucket.
Proof. intros subject s. unfold newBucket. by rewrite lookup_empty. Qed.

Lemma set_wf_setOf b subject : bucket_wf b → set_wf (setOf b subject).
Proof.
  intros Hwf. unfold setOf.
  destruct (b !! subject) eqn:Hb; cbn; [by eapply Hwf | apply set_wf_new].
Qed.

Lemma bucket_wf_add b msg : bucket_wf b → bucket_wf (samBucket_add b msg).
Proof.
  intros Hwf subject s. rewrite samBucket_add_unfold, lookup_insert.
  case_decide.
  - intros [= <-]. by apply set_wf_add, set_wf_setOf.
  - apply Hwf.
Qed.

Lemma bucket_wf_addAll msgs : ∀ b, bucket_wf b → bucket_wf (addAll b msgs).
Proof.
  unfold addAll. induction msgs as [| m msgs IH]; intros b Hwf; cbn; [done |].
  by apply IH, bucket_wf_add.
Qed.

(** A set stored by [add] holds at least the message that created it. *)
(** *** The scan *)

Lemma scanQuorum_None quorum sets :
  scanQuorum quorum sets = None
  ↔ Forall (λ s, quorum (Z.of_nat (length (get s))) = false) sets.
Proof.
  induction sets as [| s sets IH]; cbn.
  - split; [constructor | done].
  - rewrite Forall_cons.
    destruct (quorum (Z.of_nat (length (get s)))); [intuition congruence |].
    rewrite IH. intuition congruence.
Qed.

Lemma scanQuorum_Some quorum sets msgs :
  scanQuorum quorum sets = Some msgs →
  ∃ s, s ∈ sets ∧ msgs = get s
       ∧ quorum (Z.of_nat (length msgs)) = true.
Proof.
  induction sets as [| s sets IH]; cbn; [done |].
  destruct (quorum (Z.of_nat (length (get s)))) eqn:Hq.
  - intros [= <-]. exists s. split; [left | done].
  - intros Hscan. destruct (IH Hscan) as (s' & Hin & Hmsgs & Hq').
    exists s'. split; [by right | done].
Qed.

Lemma elem_of_order (b : samBucket) (order : list (Z * samSet)) s :
  order ≡ₚ map_to_list b →
  s ∈ order.*2 ↔ ∃ subject, b !! subject = Some s.
Proof.
  intros Hperm. rewrite list_elem_of_fmap. split.
  - intros ([subject s'] & -> & Hin). exists subject. cbn.
    rewrite Hperm in Hin. by apply elem_of_map_to_list in Hin.
  - intros (subject & Hb). exists (subject, s). split; [done |].
    rewrite Hperm. by apply elem_of_map_to_list.
Qed.

(** The scan always ends: the library's enumeration is one run. *)
Lemma getQuorumMessages_total b quorum :
  getQuorumMessages b quorum (getQuorumMessagesIn b quorum).
Proof. by exists (map_to_list b). Qed.

(** C8. Quorum dedup.  [add] is idempotent in the signature: a second
    message with the signature bytes of one just added to the same
    subject changes nothing, so two such messages for a new subject give
    a set of size 1.  Messages with pairwise distinct signatures for a
    new subject are all kept, in order: after [k] of them the subject
    counts [k], so the count grows by one each time and a quorum
    predicate that holds of the number of messages added is met by the
    scan, which then returns a non-nil result. *)
Theorem add_dedups_by_signature (b : samBucket) (subject : Z)
    (msgs : list SAM) :
  b !! subject = None →
  Forall (λ m, Hash m = subject) msgs →
  NoDup (Signature <$> msgs) →
  (∀ (b' : samBucket) m1 m2,
      Hash m1 = Hash m2 → Signature m1 = Signature m2 →
      samBucket_add (samBucket_add b' m1) m2 = samBucket_add b' m1) ∧
  (∀ m1 m2,
      Hash m1 = subject → Hash m2 = subject →
      Signature m1 = Signature m2 →
      count (samBucket_add (samBucket_add b m1) m2) subject = 1) ∧
  (∀ k, (k ≤ length msgs)%nat →
      count (addAll b (take k msgs)) subject = Z.of_nat k ∧
      get (setOf (addAll b (take k msgs)) subject) = take k msgs) ∧
  (∀ quorum r,
      msgs ≠ [] →
      quorum (Z.of_nat (length msgs)) = true →
      getQuorumMessages (addAll b msgs) quorum r →
      r ≠ None).
Proof.
  intros Hnew Hall Hnd.
  assert (Hidem : ∀ (b' : samBucket) m1 m2,
      Hash m1 = Hash m2 → Signature m1 = Signature m2 →
      samBucket_add (samBucket_add b' m1) m2 = samBucket_add b' m1).
  { intros b' m1 m2 Hh Hs.
    rewrite (samBucket_add_unfold _ m2), <- Hh, setOf_add_same.
    rewrite samSet_add_signed.
    - apply insert_id, lookup_add_same.
    - rewrite <- Hs. apply signed_after_add. }
  assert (Hempty : setOf b subject = newSet)
    by (unfold setOf; by rewrite Hnew).
  assert (Hprefix : ∀ k,
      messages (setOf (addAll b (take k msgs)) subject) = take k msgs).
  { intros k. rewrite setOf_addAll by (by apply Forall_take).
    rewrite foldl_add_fresh.
    - by rewrite Hempty.
    - rewrite Hempty. apply set_wf_new.
    - rewrite fmap_take. eapply sublist_NoDup; [done | apply sublist_take].
    - intros m _. rewrite Hempty. unfold signed. cbn.
      by rewrite lookup_empty. }
  split; [exact Hidem |]. split; [| split].
  - intros m1 m2 H1 H2 Hs. rewrite Hidem by congruence.
    rewrite count_setOf, <- H1, setOf_add_same, H1, Hempty.
    rewrite samSet_add_fresh; [done |].
    unfold signed. cbn. by rewrite lookup_empty.
  - intros k Hk. rewrite count_setOf. unfold get. rewrite Hprefix.
    split; [| done]. rewrite length_take. f_equal. lia.
  - intros quorum r Hne Hq (order & Hperm & ->) Hnone.
    apply (proj1 (scanQuorum_None quorum _)) in Hnone.
    rewrite Forall_forall in Hnone.
    specialize (Hprefix (length msgs)). rewrite firstn_all in Hprefix.
    pose proof (lookup_addAll_nonempty msgs b subject Hne Hall) as Hlook.
    assert (Hin : setOf (addAll b msgs) subject ∈ order.*2)
      by (apply (elem_of_order (addAll b msgs)); eauto).
    apply Hnone in Hin. unfold get in Hin. rewrite Hprefix in Hin.
    congruence.
Qed.

Lemma add_dedups_by_signature_witness :
  count (samBucket_add (samBucket_add newBucket (mkSAM 7 "sig-a" "event 1"))
           redelivered) 7 = 1
  ∧ count (addAll newBucket threeSigners) 7 = 3
  ∧ getQuorumMessagesIn (addAll newBucket threeSigners) (λ n, 3 <=? n)
    ≠ None.
Proof.
  assert (H1 : (newBucket : samBucket) !! 7 = None) by reflexivity.
  assert (H2 : Forall (λ m, Hash m = 7) threeSigners)
    by (repeat constructor).
  assert (H3 : NoDup (Signature <$> threeSigners))
    by (apply (bool_decide_unpack _); vm_compute; reflexivity).
  destruct (add_dedups_by_signature newBucket 7 threeSigners H1 H2 H3)
    as (_ & Hdup & Hgrow & Hquorum).
  split; [by apply Hdup |]. split.
  - apply (Hgrow 3%nat). cbn. lia.
  - apply (Hquorum (λ n, 3 <=? n));
      [done | reflexivity | apply getQuorumMessages_total].
Defined.

(** C9. [getQuorumMessages] returns nil exactly when no subject of the
    bucket has a message count that satisfies the predicate, whatever
    the order of the scan; a non-nil result is the whole message list of
    some subject whose count satisfies it.  In a bucket filled by [add]
    the message count of a subject is its number of distinct
    signatures. *)
Theorem getQuorumMessages_nil_iff_no_quorum (b : samBucket)
    (quorum : quorumFunc) (r : option (list SAM)) :
  getQuorumMessages b quorum r →
  (r = None ↔
     ∀ subject s, b !! subject = Some s →
       quorum (Z.of_nat (length (get s))) = false) ∧
  (∀ msgs, r = Some msgs →
     ∃ subject s, b !! subject = Some s ∧ msgs = get s
                  ∧ quorum (Z.of_nat (length msgs)) = true) ∧
  (∀ history, b = addAll newBucket history →
     ∀ subject s, b !! subject = Some s →
       Z.of_nat (length (get s)) = distinctSignatures s).
Proof.
  intros (order & Hperm & ->). split; [| split].
  - rewrite scanQuorum_None, Forall_forall. split.
    + intros Hall subject s Hb. apply Hall.
      apply (elem_of_order b); eauto.
    + intros Hall s Hin. apply (elem_of_order b) in Hin as [subject Hb];
        eauto.
  - intros msgs Hscan.
    apply scanQuorum_Some in Hscan as (s & Hin & Hmsgs & Hq).
    apply (elem_of_order b) in Hin as [subject Hb]; eauto.
  - intros history -> subject s Hb. apply set_wf_count.
    by eapply (bucket_wf_addAll history newBucket bucket_wf_new).
Qed.

Lemma getQuorumMessages_nil_iff_no_quorum_witness :
  getQuorumMessagesIn (addAll newBucket threeSigners) (λ n, 3 <=? n)
  = Some threeSigners
  ∧ ∃ subject s,
      addAll newBucket threeSigners !! subject = Some s
      ∧ threeSigners = get s
      ∧ (3 <=? Z.of_nat (length threeSigners)) = true.
Proof.
  split; [vm_compute; reflexivity |].
  refine (proj1 (proj2 (getQuorumMessages_nil_iff_no_quorum
    (addAll newBucket threeSigners) (λ n, 3 <=? n) (Some threeSigners) _))
    threeSigners eq_refl).
  exists (map_to_list (addAll newBucket threeSigners)).
  split; [reflexivity | vm_compute; reflexivity].
Defined.

(** *** Further properties of the bucket *)

Lemma setOf_addAll_about msgs : ∀ (b : samBucket) subject,
  setOf (addAll b msgs) subject
  = foldl samSet_add (setOf b subject) (about subject msgs).
Proof.
  unfold addAll, about.
  induction msgs as [| m msgs IH]; intros b subject; cbn; [done |].
  rewrite IH. destruct (Z.eqb_spec (Hash m) subject) as [<- | Hne]; cbn.
  - by rewrite setOf_add_same.
  - by rewrite setOf_add_other.
Qed.

Lemma lookup_addAll msgs : ∀ (b : samBucket) subject,
  addAll b msgs !! subject
  = match about subject msgs with
    | [] => b !! subject
    | _ :: _ => Some (setOf (addAll b msgs) subject)
    end.
Proof.
  induction msgs as [| m msgs IH]; intros b subject; [done |].
  change (addAll b (m :: msgs)) with (addAll (samBucket_add b m) msgs).
  rewrite IH. unfold about. cbn [List.filter].
  destruct (Z.eqb_spec (Hash m) subject) as [<- | Hne].
  - fold (about (Hash m) msgs).
    destruct (about (Hash m) msgs) eqn:Hrest; [| done].
    rewrite lookup_add_same, setOf_addAll_about, Hrest. cbn.
    by rewrite setOf_add_same.
  - fold (about subject msgs).
    destruct (about subject msgs); [| done].
    rewrite samBucket_add_unfold. by rewrite lookup_insert_ne.
Qed.

Lemma foldl_add_keepFirst msgs : ∀ s seen,
  (∀ sig, signed s sig = true ↔ sig ∈ seen) →
  messages (foldl samSet_add s msgs) = messages s ++ keepFirst seen msgs.
Proof.
  induction msgs as [| m msgs IH]; intros s seen Hseen; cbn [foldl keepFirst].
  - by rewrite app_nil_r.
  - case_bool_decide as Hin.
    + apply Hseen in Hin. rewrite samSet_add_signed by done. by apply IH.
    + assert (Hs : signed s (Signature m) = false).
      { apply not_true_iff_false. by rewrite Hseen. }
      rewrite (IH _ (Signature m :: seen)).
      * rewrite samSet_add_fresh by done. by rewrite <- app_assoc.
      * intros sig. unfold samSet_add. rewrite Hs.
        unfold signed at 1. cbn. rewrite signed_insert, elem_of_cons.
        case_decide; [intuition congruence |].
        rewrite Hseen. intuition congruence.
Qed.

Lemma keepFirst_sublist msgs : ∀ seen, keepFirst seen msgs `sublist_of` msgs.
Proof.
  induction msgs as [| m msgs IH]; intros seen; cbn; [done |].
  case_bool_decide.
  - by apply sublist_cons.
  - by apply sublist_skip.
Qed.

Lemma keepFirst_fresh msgs : ∀ seen m,
  m ∈ keepFirst seen msgs → Signature m ∉ seen.
Proof.
  induction msgs as [| m' msgs IH]; intros seen m; cbn.
  - by intros ?%elem_of_nil.
  - case_bool_decide as Hin; [by apply IH |].
    intros [-> | Hm]%elem_of_cons; [done |].
    apply IH in Hm. rewrite elem_of_cons in Hm. intuition.
Qed.

Lemma keepFirst_NoDup msgs : ∀ seen,
  NoDup (Signature <$> keepFirst seen msgs).
Proof.
  induction msgs as [| m msgs IH]; intros seen; cbn; [constructor |].
  case_bool_decide; [apply IH |].
  cbn. constructor; [| apply IH].
  intros (m' & Hsig & Hm')%list_elem_of_fmap.
  apply keepFirst_fresh in Hm'. apply Hm'. rewrite <- Hsig. left.
Qed.

Lemma keepFirst_nonempty m msgs : firstBySignature (m :: msgs) ≠ [].
Proof.
  unfold firstBySignature. cbn.
  rewrite bool_decide_eq_false_2 by apply not_elem_of_nil. done.
Qed.

Lemma elem_of_about subject msgs m :
  m ∈ about subject msgs ↔ m ∈ msgs ∧ Hash m = subject.
Proof.
  unfold about. rewrite !list_elem_of_In, filter_In.
  by rewrite Z.eqb_eq.
Qed.

(** The messages held for a subject after a history of [add]s. *)
Lemma get_addAll_new history subject :
  get (setOf (addAll newBucket history) subject)
  = firstBySignature (about subject history).
Proof.
  unfold get. rewrite setOf_addAll_about.
  rewrite (foldl_add_keepFirst _ _ []).
  - unfold setOf, newBucket. by rewrite lookup_empty.
  - intros sig. unfold setOf, newBucket, signed.
    rewrite lookup_empty. cbn. rewrite lookup_empty. cbn.
    split; [done | by intros ?%elem_of_nil].
Qed.

(** X1. [add] never removes, replaces or reorders what a bucket holds:
    whatever messages are added afterwards, a subject that is in the
    bucket stays in it, and the messages it held are still there, in the
    same order, at the front of its list. *)
Theorem addAll_keeps_messages (b : samBucket) (msgs : list SAM)
    (subject : Z) (s : samSet) :
  b !! subject = Some s →
  ∃ s', addAll b msgs !! subject = Some s'
        ∧ get s `prefix_of` get s'.
Proof.
  revert b s. unfold addAll.
  induction msgs as [| m msgs IH]; intros b s Hb; cbn.
  - exists s. by split.
  - destruct (decide (Hash m = subject)) as [<- | Hne].
    + destruct (IH (samBucket_add b m)
                  (samSet_add (setOf b (Hash m)) m)
                  (lookup_add_same b m)) as (s' & Hs' & Hpre).
      exists s'. split; [done |].
      etrans; [| exact Hpre].
      unfold setOf. rewrite Hb. cbn. unfold get, samSet_add.
      destruct (signed s (Signature m)); [done |]. cbn.
      by apply prefix_app_r.
    + apply IH. rewrite samBucket_add_unfold. by rewrite lookup_insert_ne.
Qed.

Lemma addAll_keeps_messages_witness :
  ∃ s', addAll (samBucket_add newBucket (mkSAM 7 "sig-a" "event 1"))
          [redelivered; mkSAM 7 "sig-b" "event 1"] !! 7 = Some s'
        ∧ [mkSAM 7 "sig-a" "event 1"] `prefix_of` get s'.
Proof.
  apply (addAll_keeps_messages
           (samBucket_add newBucket (mkSAM 7 "sig-a" "event 1"))
           [redelivered; mkSAM 7 "sig-b" "event 1"] 7
           (samSet_add newSet (mkSAM 7 "sig-a" "event 1"))).
  reflexivity.
Defined.

(** X2. One [add] changes the message count of one subject by at most
    one: the count of the subject of the message grows by one when its
    signature is not yet recorded for that subject, and is unchanged
    otherwise; the count of every other subject is unchanged. *)
Theorem add_count_step (b : samBucket) (msg : SAM) (subject : Z) :
  count (samBucket_add b msg) subject
  = if bool_decide (subject = Hash msg)
       && negb (signed (setOf b subject) (Signature msg))
    then count b subject + 1
    else count b subject.
Proof.
  rewrite !count_setOf. case_bool_decide as Hs; cbn [andb].
  - subst subject. rewrite setOf_add_same. unfold samSet_add.
    destruct (signed (setOf b (Hash msg)) (Signature msg)); cbn; [done |].
    rewrite length_app. cbn. lia.
  - by rewrite setOf_add_other.
Qed.

(** X3. First signature wins.  In a bucket filled from empty by a history
    of [add]s, a subject is present exactly when the history has a
    message about it, and its message list is then the messages of the
    history about that subject, in order, without those whose signature
    an earlier one already carried. *)
Theorem addAll_first_signature_wins (history : list SAM) (subject : Z) :
  addAll newBucket history !! subject
  = match about subject history with
    | [] => None
    | _ :: _ =>
        Some (setOf (addAll newBucket history) subject)
    end
  ∧ get (setOf (addAll newBucket history) subject)
    = firstBySignature (about subject history).
Proof.
  split; [| apply get_addAll_new].
  rewrite lookup_addAll. destruct (about subject history); [| done].
  unfold newBucket. apply lookup_empty.
Qed.

(** X4. What a scan of a bucket filled from empty by [add]s returns, when
    it is not nil, is never empty: its messages all come from the
    history, are all about one subject, and carry pairwise distinct
    signatures. *)
Theorem getQuorumMessages_result_shape (history : list SAM)
    (quorum : quorumFunc) (msgs : list SAM) :
  getQuorumMessages (addAll newBucket history) quorum (Some msgs) →
  msgs ≠ []
  ∧ NoDup (Signature <$> msgs)
  ∧ (∃ subject, Forall (λ m, Hash m = subject) msgs)
  ∧ Forall (λ m, m ∈ history) msgs.
Proof.
  intros (order & Hperm & Hscan). symmetry in Hscan.
  apply scanQuorum_Some in Hscan as (s & Hin & -> & _).
  apply (elem_of_order (addAll newBucket history)) in Hin as [subject Hb];
    [| done].
  destruct (addAll_first_signature_wins history subject) as [Hlook Hget].
  rewrite Hb in Hlook.
  destruct (about subject history) as [| m rest] eqn:Habout; [done |].
  injection Hlook as ->. rewrite Hget.
  assert (Hsub : ∀ m', m' ∈ firstBySignature (m :: rest) →
                       m' ∈ history ∧ Hash m' = subject).
  { intros m' Hm'. apply elem_of_about. rewrite Habout.
    apply (sublist_subseteq _ _ (keepFirst_sublist (m :: rest) [])).
    exact Hm'. }
  split; [apply keepFirst_nonempty |].
  split; [apply keepFirst_NoDup |]. split.
  - exists subject. apply Forall_forall. intros m' Hm'. by apply Hsub.
  - apply Forall_forall. intros m' Hm'. by apply Hsub.
Qed.

Lemma getQuorumMessages_result_shape_witness :
  threeSigners ≠ [] ∧ NoDup (Signature <$> threeSigners).
Proof.
  destruct (getQuorumMessages_result_shape (threeSigners ++ [redelivered])
              (λ n, 3 <=? n) threeSigners) as (Hne & Hnd & _).
  - exists (map_to_list (addAll newBucket (threeSigners ++ [redelivered]))).
    split; [reflexivity | vm_compute; reflexivity].
  - split; [exact Hne | exact Hnd].
Defined.

(** X5. Which subject the scan returns is not fixed: the message list of
    any subject whose count satisfies the predicate is a possible result
    of [getQuorumMessages].  When all the subjects that satisfy it hold
    the same message list, that list is the only possible result. *)
Theorem getQuorumMessages_any_qualifying (b : samBucket)
    (quorum : quorumFunc) (subject : Z) (s : samSet) :
  b !! subject = Some s →
  quorum (Z.of_nat (length (get s))) = true →
  getQuorumMessages b quorum (Some (get s))
  ∧ ((∀ subject' s', b !! subject' = Some s' →
                     quorum (Z.of_nat (length (get s'))) = true →
                     get s' = get s) →
     ∀ r, getQuorumMessages b quorum r → r = Some (get s)).
Proof.
  intros Hb Hq. split.
  - assert (Hin : (subject, s) ∈ map_to_list b)
      by (by apply elem_of_map_to_list).
    apply elem_of_Permutation in Hin as [rest Hperm].
    exists ((subject, s) :: rest). split; [by symmetry |].
    cbn. by rewrite Hq.
  - intros Honly r (order & Hperm & ->).
    destruct (scanQuorum quorum order.*2) as [msgs |] eqn:Hscan.
    + apply scanQuorum_Some in Hscan as (s' & Hin & -> & Hq').
      apply (elem_of_order b) in Hin as [subject' Hb']; [| done].
      f_equal. by eapply Honly.
    + apply (proj1 (scanQuorum_None quorum _)) in Hscan.
      rewrite Forall_forall in Hscan.
      assert (Hin : s ∈ order.*2) by (apply (elem_of_order b); eauto).
      apply Hscan in Hin. congruence.
Qed.

Lemma getQuorumMessages_any_qualifying_witness :
  getQuorumMessages (addAll newBucket threeSigners) (λ n, 3 <=? n)
    (Some threeSigners).
Proof.
  apply (getQuorumMessages_any_qualifying (addAll newBucket threeSigners)
           (λ n, 3 <=? n) 7
           (setOf (addAll newBucket threeSigners) 7));
    vm_compute; reflexivity.
Defined.

End SampoolFacts.

(* ===================================================================== *)
(** ** Properties of the event tracker                                    *)
(* ===================================================================== *)

Module TrackerFacts.
Import polybft.

(** *** Machine arithmetic *)

Lemma u64_small z : is_u64 z → u64 z = z.
Proof. intros Hz. unfold u64. apply Z.mod_small. exact Hz. Qed.

Lemma u64_range z : is_u64 (u64 z).
Proof. unfold is_u64, u64. apply Z.mod_pos_bound. lia. Qed.

Lemma matchTopic_topic log topic0 topics logIDs :
  Topics log = topic0 :: topics →
  matchTopic log logIDs = Some (bool_decide (topic0 ∈ logIDs)).
Proof.
  intros Ht. induction logIDs as [| id logIDs IH]; cbn.
  - rewrite bool_decide_eq_false_2; [done | apply not_elem_of_nil].
  - rewrite Ht. destruct (Z.eqb_spec topic0 id) as [-> | Hne].
    + rewrite bool_decide_eq_true_2; [done | left].
    + rewrite IH. f_equal. apply bool_decide_ext.
      rewrite elem_of_cons. intuition congruence.
Qed.

Lemma accepted_iff table log :
  accepted table log = true ↔
  ∃ logIDs topic0,
    table !! Address log = Some logIDs
    ∧ Topics log !! 0%nat = Some topic0
    ∧ topic0 ∈ logIDs.
Proof.
  unfold accepted. split.
  - destruct (table !! Address log) as [logIDs |]; [| done].
    destruct (Topics log) as [| topic0 topics]; [done |].
    intros Hin%bool_decide_eq_true. by exists logIDs, topic0.
  - intros (logIDs & topic0 & -> & Ht & Hin).
    destruct (Topics log) as [| t topics]; [done |].
    cbn in Ht. injection Ht as ->. by apply bool_decide_eq_true.
Qed.

Lemma indexesEmptyTopics_iff table log :
  indexesEmptyTopics table log = true ↔
  Topics log = [] ∧ ∃ id ids, table !! Address log = Some (id :: ids).
Proof.
  unfold indexesEmptyTopics. split.
  - destruct (table !! Address log) as [[| id ids] |]; try done.
    destruct (Topics log); [eauto | done].
  - intros (-> & id & ids & ->). done.
Qed.

(** A log that has a topic whenever its address is in the table never
    makes the filter index an empty list. *)
Lemma with_topic_safe table logs :
  Forall (λ log, is_Some (table !! Address log) → Topics log ≠ []) logs →
  Forall (λ log, indexesEmptyTopics table log = false) logs.
Proof.
  intros Hall. eapply Forall_impl; [exact Hall |]. cbn.
  intros log Hlog. apply not_true_iff_false.
  intros (Ht & id & ids & Hkey)%indexesEmptyTopics_iff.
  apply Hlog; [by rewrite Hkey | done].
Qed.

(** Either no log of the list makes the filter index an empty list, or
    there is a first one that does. *)
Lemma first_unsafe table logs :
  Forall (λ log, indexesEmptyTopics table log = false) logs
  ∨ ∃ pre log post,
      logs = pre ++ log :: post
      ∧ Forall (λ log, indexesEmptyTopics table log = false) pre
      ∧ indexesEmptyTopics table log = true.
Proof.
  induction logs as [| log logs IH]; [left; constructor |].
  destruct (indexesEmptyTopics table log) eqn:Hlog.
  - right. exists [], log, logs. split; [done |]. split; [constructor | done].
  - destruct IH as [IH | (pre & bad & post & -> & Hpre & Hbad)].
    + left. by constructor.
    + right. exists (log :: pre), bad, post.
      split; [done |]. split; [by constructor | done].
Qed.

Lemma count_occ_accepted table logs log :
  accepted table log = true →
  count_occ Log_eq_dec (List.filter (accepted table) logs) log
  = count_occ Log_eq_dec logs log.
Proof.
  intros Hacc. induction logs as [| log' logs IH]; [done |].
  cbn [List.filter].
  destruct (accepted table log') eqn:Hacc'; cbn [count_occ].
  - destruct (Log_eq_dec log' log); by rewrite IH.
  - destruct (Log_eq_dec log' log) as [-> | _]; [congruence | done].
Qed.

Lemma elem_of_accepted table logs log :
  log ∈ List.filter (accepted table) logs
  ↔ log ∈ logs ∧ accepted table log = true.
Proof. rewrite !list_elem_of_In. apply filter_In. Qed.

Section WithCollaborators.
Context {P St Sub : Type}.
Context `{!BlockProvider P, !EventTrackerStore St, !EventSubscription Sub}.

Local Abbreviation tracker := (PolybftEventTracker P St Sub).

Lemma forwardAll_frame logs : ∀ p : tracker,
  config (forwardAll p logs) = config p
  ∧ blockContainer (forwardAll p logs) = blockContainer p
  ∧ provider (forwardAll p logs) = provider p
  ∧ store (forwardAll p logs) = store p
  ∧ calls (forwardAll p logs) = calls p ++ (CallAddLog <$> logs)
  ∧ subscriber (forwardAll p logs)
    = foldl (λ sub log, AddLog log sub) (subscriber p) logs.
Proof.
  unfold forwardAll.
  induction logs as [| log logs IH]; intros p; cbn.
  - by rewrite app_nil_r.
  - destruct (IH (withSubscriber p (AddLog log (subscriber p))
                    (CallAddLog log)))
      as (-> & -> & -> & -> & -> & ->).
    cbn. by rewrite <- app_assoc.
Qed.

(** One round of the filter loop. *)
Lemma filterLogs_cons log logs (filteredLogs : list Log) (p : tracker) :
  filterLogs (log :: logs) filteredLogs p
  = if indexesEmptyTopics (LogFilter (config p)) log then (None, p)
    else if accepted (LogFilter (config p)) log
    then filterLogs logs (filteredLogs ++ [log])
           (withSubscriber p (AddLog log (subscriber p)) (CallAddLog log))
    else filterLogs logs filteredLogs p.
Proof.
  cbn [filterLogs]. unfold indexesEmptyTopics, accepted.
  destruct (LogFilter (config p) !! Address log) as [logIDs |]; [| done].
  destruct (Topics log) as [| topic0 topics] eqn:Ht.
  - destruct logIDs as [| id logIDs]; cbn; [done |]. by rewrite Ht.
  - rewrite (matchTopic_topic log topic0 topics) by done.
    by destruct logIDs.
Qed.

(** The filter loop keeps and forwards exactly the accepted logs, as
    long as it never indexes an empty topic list. *)
Lemma filterLogs_accepted logs : ∀ (filteredLogs : list Log) (p : tracker),
  Forall (λ log, indexesEmptyTopics (LogFilter (config p)) log = false)
    logs →
  let kept := List.filter (accepted (LogFilter (config p))) logs in
  filterLogs logs filteredLogs p
  = (Some (filteredLogs ++ kept), forwardAll p kept).
Proof.
  induction logs as [| log logs IH]; intros filteredLogs p Hsafe kept.
  - cbn. by rewrite app_nil_r.
  - apply Forall_cons in Hsafe as [Hlog Hsafe].
    rewrite filterLogs_cons, Hlog. subst kept. cbn [List.filter].
    destruct (accepted (LogFilter (config p)) log).
    + rewrite IH by done. cbn. by rewrite <- app_assoc.
    + by apply IH.
Qed.

(** The first log that indexes an empty topic list stops the loop with
    a panic, after the accepted logs before it were forwarded. *)
Lemma filterLogs_panics pre log post : ∀ (filteredLogs : list Log)
    (p : tracker),
  Forall (λ log, indexesEmptyTopics (LogFilter (config p)) log = false)
    pre →
  indexesEmptyTopics (LogFilter (config p)) log = true →
  filterLogs (pre ++ log :: post) filteredLogs p
  = (None,
     forwardAll p (List.filter (accepted (LogFilter (config p))) pre)).
Proof.
  induction pre as [| log' pre IH]; intros filteredLogs p Hsafe Hbad.
  - cbn [app]. by rewrite filterLogs_cons, Hbad.
  - apply Forall_cons in Hsafe as [Hlog' Hsafe].
    cbn [app List.filter]. rewrite filterLogs_cons, Hlog'.
    destruct (accepted (LogFilter (config p)) log').
    + by rewrite IH.
    + by apply IH.
Qed.

(** Whatever the logs, the filter loop only forwards: it ends in the
    tracker reached by forwarding some logs [fwd], and when it does not
    panic it has kept exactly these. *)
Lemma filterLogs_forwards logs : ∀ (filteredLogs : list Log) (p : tracker),
  ∃ fwd,
    (filterLogs logs filteredLogs p).2 = forwardAll p fwd
    ∧ ∀ kept, (filterLogs logs filteredLogs p).1 = Some kept →
              kept = filteredLogs ++ fwd.
Proof.
  induction logs as [| log logs IH]; intros filteredLogs p.
  - exists []. cbn. split; [done |]. intros kept [= <-].
    by rewrite app_nil_r.
  - rewrite filterLogs_cons.
    destruct (indexesEmptyTopics (LogFilter (config p)) log).
    { exists []. by cbn. }
    destruct (accepted (LogFilter (config p)) log).
    + destruct (IH (filteredLogs ++ [log])
                  (withSubscriber p (AddLog log (subscriber p))
                     (CallAddLog log))) as (fwd & Hp & Hkept).
      exists (log :: fwd). split; [done |].
      intros kept Hk. rewrite (Hkept kept Hk). by rewrite <- app_assoc.
    + apply IH.
Qed.

(** Case analysis of one pass of [processLogs] over a non-empty
    confirmed range, along its error exits. *)
Ltac split_pass p from rest Hconf :=
  unfold processLogs; rewrite Hconf; cbn zeta;
  change (default from (last (from :: rest))) with (rangeEnd from rest);
  let logs := fresh "logs" in
  let pr := fresh "pr" in
  let err := fresh "err" in
  destruct (GetLogs _ (provider p)) as [[logs | err] pr] eqn:Hget;
  [ let kept := fresh "kept" in
    let p1 := fresh "p1" in
    destruct (filterLogs logs [] _) as [[kept |] p1] eqn:Hfilter;
    [ let st1 := fresh "st1" in
      destruct (InsertLastProcessedBlock _ (store p1))
        as [[err |] st1] eqn:Hwm;
      [ | let st2 := fresh "st2" in
          destruct (InsertLogs kept _) as [[err |] st2] eqn:Hlogs;
          [ | let c' := fresh "c'" in
              destruct (RemoveBlocks _ _ _) as [c' | err] eqn:Hrm ] ]
    | ]
  | ].

Lemma processLogs_calls (p : tracker) (from : Z) (rest : list Z) :
  GetConfirmedBlocks (blockContainer p) (NumBlockConfirmations (config p))
  = from :: rest →
  let to := rangeEnd from rest in
  ∃ ok fwd tail,
    calls (processLogs p).2
    = calls p ++ CallGetLogs (getLogsQuery p from to) ok
                 :: (CallAddLog <$> fwd) ++ tail
    ∧ writePhase from to fwd (blockContainer p)
        (blockContainer (processLogs p).2) (processLogs p).1 tail.
Proof.
  intros Hconf to. subst to. split_pass p from rest Hconf.
  all: set (to := rangeEnd from rest) in *.
  all: try
    (pose proof (filterLogs_forwards logs []
                   (withProvider p pr
                      (CallGetLogs (getLogsQuery p from to) true)))
       as (fwd & Hp1 & Hkept);
     rewrite Hfilter in Hp1, Hkept; cbn in Hp1, Hkept;
     destruct (forwardAll_frame fwd
                 (withProvider p pr
                    (CallGetLogs (getLogsQuery p from to) true)))
       as (Hcfg & Hc & Hpr & Hst & Hcalls & Hsub);
     rewrite <- Hp1 in Hcfg, Hc, Hpr, Hst, Hcalls, Hsub;
     cbn in Hcfg, Hc, Hpr, Hst, Hcalls, Hsub;
     try (rewrite (Hkept kept eq_refl) in *; cbn [app] in * );
     exists true, fwd).
  - eexists. cbn. rewrite Hcalls, <- !app_assoc. cbn.
    split; [reflexivity |]. rewrite Hc.
    right. left. done.
  - eexists. cbn. rewrite Hcalls, <- !app_assoc. cbn.
    split; [reflexivity |]. rewrite Hc.
    right. right. left. done.
  - eexists. cbn. rewrite Hcalls, <- !app_assoc. cbn.
    split; [reflexivity |].
    right. right. right. right. cbn in Hrm. rewrite Hc in Hrm. done.
  - eexists. cbn. rewrite Hcalls, <- !app_assoc. cbn.
    split; [reflexivity |]. rewrite Hc.
    right. right. right. left. done.
  - exists []. cbn. rewrite Hcalls, <- !app_assoc. cbn.
    rewrite app_nil_r. split; [reflexivity |]. rewrite Hc.
    left. done.
  - exists false, [], []. cbn. split; [done |]. left. done.
Qed.

Lemma write_not_before q ok (fwd : list Log) call :
  isWrite call → call ∉ CallGetLogs q ok :: (CallAddLog <$> fwd).
Proof.
  intros Hw [-> | Hin]%elem_of_cons; [done |].
  apply list_elem_of_fmap in Hin as (log & -> & _). done.
Qed.

Lemma write_in_tail (pre tail : list Call) call i :
  (∀ c, isWrite c → c ∉ pre) →
  isWrite call →
  (pre ++ tail) !! i = Some call →
  ∃ k, i = (length pre + k)%nat ∧ tail !! k = Some call.
Proof.
  intros Hpre Hw [Hi | [Hlen Hi]]%lookup_app_Some.
  - apply list_elem_of_lookup_2 in Hi. by apply Hpre in Hi.
  - exists (i - length pre)%nat. split; [lia | done].
Qed.

Lemma tail_lookup (pre tail : list Call) call k :
  tail !! k = Some call → (pre ++ tail) !! (length pre + k)%nat = Some call.
Proof. intros Hk. by rewrite lookup_app_r, Nat.add_sub' by lia. Qed.

(** C2. In a pass of [processLogs] over a non-empty confirmed range
    [[from, to]], among the calls [new] the pass makes: a log write
    comes after a successful watermark write of [to]; an eviction is
    of [[from, to]] and comes after a successful watermark write and
    then a successful log write; when either write fails there is no
    eviction and the window is unchanged; and the window changes only
    by the eviction of [[from, to]]. *)
Theorem processLogs_writes_then_evicts (p : tracker) (from : Z)
    (rest : list Z) :
  GetConfirmedBlocks (blockContainer p) (NumBlockConfirmations (config p))
  = from :: rest →
  let to := rangeEnd from rest in
  let p' := (processLogs p).2 in
  ∃ new,
    calls p' = calls p ++ new
    ∧ (∀ i logs ok,
         new !! i = Some (CallInsertLogs logs ok) →
         ∃ j, (j < i)%nat
              ∧ new !! j = Some (CallInsertLastProcessedBlock to true))
    ∧ (∀ i f t ok,
         new !! i = Some (CallRemoveBlocks f t ok) →
         f = from ∧ t = to
         ∧ ∃ j k logs,
             (j < k < i)%nat
             ∧ new !! j = Some (CallInsertLastProcessedBlock to true)
             ∧ new !! k = Some (CallInsertLogs logs true))
    ∧ ((CallInsertLastProcessedBlock to false ∈ new
        ∨ ∃ logs, CallInsertLogs logs false ∈ new) →
       (∀ f t ok, CallRemoveBlocks f t ok ∉ new)
       ∧ blockContainer p' = blockContainer p
       ∧ (processLogs p).1 ≠ Nil)
    ∧ (blockContainer p' ≠ blockContainer p →
       CallRemoveBlocks from to true ∈ new
       ∧ RemoveBlocks (blockContainer p) from to
         = Ok (blockContainer p')).
Proof.
  intros Hconf to p'.
  destruct (processLogs_calls p from rest Hconf)
    as (ok & fwd & tail & Hcalls & Hphase).
  fold to in Hcalls, Hphase. fold p' in Hcalls, Hphase.
  set (pre := CallGetLogs (getLogsQuery p from to) ok
                :: (CallAddLog <$> fwd)) in *.
  assert (Hpre : ∀ c, isWrite c → c ∉ pre)
    by (intros c Hc; by apply write_not_before).
  exists (pre ++ tail). split; [by rewrite Hcalls |].
  assert (Htail : ∀ call,
            isWrite call → call ∈ pre ++ tail → call ∈ tail).
  { intros call Hw [Hin | Hin]%elem_of_app; [| done].
    by apply Hpre in Hin. }
  split; [| split; [| split]].
  - intros i logs okw Hi.
    apply write_in_tail in Hi as (k & -> & Hk); [| done | done].
    exists (length pre + 0)%nat.
    destruct Hphase
      as [(-> & _) | [(-> & _) | [(-> & _) | [(-> & _) | (-> & _)]]]];
      destruct k as [| [| [| k]]]; cbn in Hk; try discriminate;
      (split; [lia | by apply tail_lookup]).
  - intros i f t okw Hi.
    apply write_in_tail in Hi as (k & -> & Hk); [| done | done].
    destruct Hphase
      as [(-> & _) | [(-> & _) | [(-> & _) | [(-> & _) | (-> & _)]]]];
      destruct k as [| [| [| k]]]; cbn in Hk; try discriminate;
      injection Hk as <- <- <-;
      (split; [done |]; split; [done |]);
      exists (length pre + 0)%nat, (length pre + 1)%nat, fwd;
      (split; [lia |]; split; by apply tail_lookup).
  - intros Hfailed.
    assert (Hin : CallInsertLastProcessedBlock to false ∈ tail
                  ∨ ∃ logs, CallInsertLogs logs false ∈ tail).
    { destruct Hfailed as [Hin | [logs Hin]].
      - left. by apply Htail.
      - right. exists logs. by apply Htail. }
    assert (Hnone : (∀ f t okw, CallRemoveBlocks f t okw ∉ tail)
                    ∧ blockContainer p' = blockContainer p
                    ∧ (processLogs p).1 ≠ Nil).
    { destruct Hphase
        as [(-> & Hc & Ho) | [(-> & Hc & Ho) | [(-> & Hc & Ho)
            | [(-> & Hc & Ho) | (-> & Hc & Ho)]]]].
      all: try (split; [| done]; intros f t okw Hrm;
                repeat (apply elem_of_cons in Hrm as [Hrm | Hrm];
                        [discriminate |]);
                by apply elem_of_nil in Hrm).
      all: exfalso; destruct Hin as [Hin | [logs Hin]];
        repeat (apply elem_of_cons in Hin as [Hin | Hin];
                [discriminate |]);
        by apply elem_of_nil in Hin. }
    destruct Hnone as (Hnone & Hc & Ho). split; [| done].
    intros f t okw Hrm. apply (Hnone f t okw). by apply Htail.
  - intros Hchanged.
    destruct Hphase
      as [(-> & Hc & _) | [(-> & Hc & _) | [(-> & Hc & _)
          | [(-> & Hc & _) | (-> & Hc & _)]]]]; try done.
    split; [| done]. apply elem_of_app. right.
    rewrite !elem_of_cons. auto.
Qed.

(** C7. When the provider fails to return the logs of the confirmed
    range [[from, to]], [processLogs] returns that error and has
    changed nothing: no call but the failed fetch was made (so no
    watermark write, no log write, no eviction), the window, the
    store and the subscriber are as before, and the same range is
    still the confirmed range of the window for the next pass. *)
Theorem processLogs_fetch_error_keeps_range (p : tracker) (from : Z)
    (rest : list Z) (err : error) (pr : P) :
  GetConfirmedBlocks (blockContainer p) (NumBlockConfirmations (config p))
  = from :: rest →
  GetLogs (getLogsQuery p from (rangeEnd from rest)) (provider p)
  = (Fail err, pr) →
  let p' := (processLogs p).2 in
  (processLogs p).1 = Err err
  ∧ calls p'
    = calls p
      ++ [CallGetLogs (getLogsQuery p from (rangeEnd from rest)) false]
  ∧ blockContainer p' = blockContainer p
  ∧ store p' = store p
  ∧ subscriber p' = subscriber p
  ∧ config p' = config p
  ∧ GetConfirmedBlocks (blockContainer p')
      (NumBlockConfirmations (config p')) = from :: rest.
Proof.
  intros Hconf Hget p'. subst p'. unfold processLogs.
  rewrite Hconf. cbn zeta.
  change (default from (last (from :: rest))) with (rangeEnd from rest).
  rewrite Hget. cbn. by rewrite Hconf.
Qed.

(** Filter exactness for logs that carry a topic.  Of the logs fetched
    for a confirmed range,
    each of which has a topic if its address is in the filter table,
    [processLogs] forwards to the subscriber exactly the list [kept] of
    those whose address is a key of the table and whose [Topics[0]] is
    one of the hashes accepted for that address, in order and as many
    times as they were fetched, and nothing else; a log from an
    address that is not a key is dropped; and [kept] is the list
    handed to [InsertLogs]. *)
Theorem processLogs_forwards_accepted (p : tracker) (from : Z)
    (rest : list Z) (logs : list Log) (pr : P) :
  GetConfirmedBlocks (blockContainer p) (NumBlockConfirmations (config p))
  = from :: rest →
  GetLogs (getLogsQuery p from (rangeEnd from rest)) (provider p)
  = (Ok logs, pr) →
  Forall (λ log, is_Some (LogFilter (config p) !! Address log) →
                 Topics log ≠ []) logs →
  let table := LogFilter (config p) in
  let kept := List.filter (accepted table) logs in
  let p' := (processLogs p).2 in
  (∀ log, log ∈ kept ↔
          log ∈ logs
          ∧ ∃ logIDs topic0,
              table !! Address log = Some logIDs
              ∧ Topics log !! 0%nat = Some topic0
              ∧ topic0 ∈ logIDs)
  ∧ (∀ log, table !! Address log = None → log ∉ kept)
  ∧ (∀ log, log ∈ kept →
            count_occ Log_eq_dec kept log = count_occ Log_eq_dec logs log)
  ∧ subscriber p' = foldl (λ sub log, AddLog log sub) (subscriber p) kept
  ∧ ∃ tail,
      calls p'
      = calls p
        ++ CallGetLogs (getLogsQuery p from (rangeEnd from rest)) true
           :: (CallAddLog <$> kept) ++ tail
      ∧ (∀ log, CallAddLog log ∉ tail)
      ∧ (∀ logs' ok, CallInsertLogs logs' ok ∈ tail → logs' = kept)
      ∧ ((processLogs p).1 = Nil → CallInsertLogs kept true ∈ tail).
Proof.
  intros Hconf Hfetch Htopics table kept p'.
  assert (Hiff : ∀ log, log ∈ kept ↔
          log ∈ logs
          ∧ ∃ logIDs topic0,
              table !! Address log = Some logIDs
              ∧ Topics log !! 0%nat = Some topic0
              ∧ topic0 ∈ logIDs).
  { intros log. subst kept. by rewrite elem_of_accepted, accepted_iff. }
  split; [exact Hiff |]. split; [| split].
  { intros log Hnone (_ & logIDs & topic0 & Hkey & _)%Hiff. congruence. }
  { intros log (_ & Hacc)%elem_of_accepted. by apply count_occ_accepted. }
  pose proof (filterLogs_accepted logs []
                (withProvider p pr
                   (CallGetLogs (getLogsQuery p from (rangeEnd from rest))
                      true))
                (with_topic_safe table logs Htopics)) as Hloop.
  cbn in Hloop. fold table in Hloop. fold kept in Hloop.
  destruct (forwardAll_frame kept
              (withProvider p pr
                 (CallGetLogs (getLogsQuery p from (rangeEnd from rest))
                    true)))
    as (Hcfg & Hc & Hpr & Hst & Hcalls & Hsub).
  cbn in Hcfg, Hc, Hpr, Hst, Hcalls, Hsub.
  subst p'. revert Hfetch. split_pass p from rest Hconf.
  all: intros Hfetch; try discriminate; injection Hfetch as -> ->.
  all: rewrite Hloop in Hfilter; try discriminate;
    injection Hfilter as <- <-.
  all: split; [exact Hsub |].
  all: eexists; cbn [snd fst calls withStore withContainer].
  all: rewrite Hcalls, <- ?app_assoc; cbn [app].
  all: (split; [reflexivity |]).
  all: split; [| split].
  all: try (intros log Hin;
            repeat (apply elem_of_cons in Hin as [Hin | Hin];
                    [discriminate |]);
            by apply elem_of_nil in Hin).
  all: try (intros logs' okw Hin;
            repeat (apply elem_of_cons in Hin as [Hin | Hin];
                    [try discriminate; by injection Hin |]);
            by apply elem_of_nil in Hin).
  all: try (by intros [=]).
  intros _. rewrite !elem_of_cons. auto.
Qed.

(** C10. The filter reads [log.Topics[0]] without a check.  If every
    fetched log from an address of the filter table has at least one
    topic, [processLogs] does not panic.  It panics exactly when some
    fetched log has no topic and comes from an address of the table
    with at least one accepted hash, for instance when such a log is
    the only one fetched; the pass then stops before any write or
    eviction. *)
Theorem processLogs_topic_index_unchecked (p : tracker) (from : Z)
    (rest : list Z) (logs : list Log) (pr : P) :
  GetConfirmedBlocks (blockContainer p) (NumBlockConfirmations (config p))
  = from :: rest →
  GetLogs (getLogsQuery p from (rangeEnd from rest)) (provider p)
  = (Ok logs, pr) →
  let table := LogFilter (config p) in
  let p' := (processLogs p).2 in
  (Forall (λ log, is_Some (table !! Address log) → Topics log ≠ [])
     logs →
   (processLogs p).1 ≠ Panic)
  ∧ ((processLogs p).1 = Panic ↔
     ∃ log, log ∈ logs ∧ Topics log = []
            ∧ ∃ id ids, table !! Address log = Some (id :: ids))
  ∧ ((processLogs p).1 = Panic →
     blockContainer p' = blockContainer p ∧ store p' = store p
     ∧ ∀ call, call ∈ calls p' → isWrite call → call ∈ calls p).
Proof.
  intros Hconf Hfetch table p'.
  set (p0 := withProvider p pr
               (CallGetLogs (getLogsQuery p from (rangeEnd from rest))
                  true)).
  assert (Hsafe :
    Forall (λ log, indexesEmptyTopics table log = false) logs →
    (processLogs p).1 ≠ Panic).
  { intros Hall.
    pose proof (filterLogs_accepted logs [] p0 Hall) as Hloop.
    cbn zeta in Hloop.
    revert Hfetch. split_pass p from rest Hconf;
      (intros Hfetch; try discriminate; injection Hfetch as -> ->);
      fold p0 in Hfilter;
      rewrite Hloop in Hfilter; try discriminate; by intros [=]. }
  assert (Hbad : ∀ pre log post,
    logs = pre ++ log :: post →
    Forall (λ log, indexesEmptyTopics table log = false) pre →
    indexesEmptyTopics table log = true →
    processLogs p
    = (Panic, forwardAll p0 (List.filter (accepted table) pre))).
  { intros pre log post -> Hpre Hlog.
    unfold processLogs. rewrite Hconf. cbn zeta.
    change (default from (last (from :: rest))) with (rangeEnd from rest).
    rewrite Hfetch. fold p0.
    by rewrite (filterLogs_panics pre log post [] p0 Hpre Hlog). }
  split; [| split].
  - intros Htopics. by apply Hsafe, with_topic_safe.
  - split.
    + intros Hpanic.
      destruct (first_unsafe table logs)
        as [Hall | (pre & log & post & -> & _ & Hlog)].
      * by apply Hsafe in Hall.
      * apply indexesEmptyTopics_iff in Hlog as (Ht & Hkey).
        exists log. split; [| done].
        apply elem_of_app. right. left.
    + intros (log & Hin & Ht & Hkey).
      destruct (first_unsafe table logs)
        as [Hall | (pre & bad & post & Heq & Hpre & Hlog)].
      * rewrite Forall_forall in Hall. specialize (Hall log Hin).
        assert (indexesEmptyTopics table log = true)
          by (by apply indexesEmptyTopics_iff).
        congruence.
      * by rewrite (Hbad pre bad post).
  - intros Hpanic.
    destruct (first_unsafe table logs)
      as [Hall | (pre & bad & post & Heq & Hpre & Hlog)];
      [by apply Hsafe in Hall |].
    subst p'. rewrite (Hbad pre bad post) by done. cbn [snd].
    destruct (forwardAll_frame (List.filter (accepted table) pre) p0)
      as (_ & -> & _ & -> & -> & _).
    cbn. split; [done |]. split; [done |].
    intros call Hin Hw.
    rewrite <- app_assoc in Hin. cbn in Hin.
    apply elem_of_app in Hin as [Hin | Hin]; [done |].
    by apply write_not_before in Hin.
Qed.

(** C3. The resync starts at [lastProcessed + 1] (in 64 bits), except
    when [latest − maxBacklog > lastProcessed], in which case it
    starts at [latest − maxBacklog]: the batch loop of [getNewState]
    is entered at that block.  With [lastProcessed = 5],
    [latest = 10050] and [maxBacklog = 10000] the start is block 50,
    not 6. *)
Theorem getNewState_start_block (fuel : nat) (p : tracker)
    (latestBlock : Block) :
  is_u64 (LastProcessedBlock (blockContainer p)) →
  is_u64 (Number latestBlock) →
  is_u64 (MaxBacklogSize (config p)) →
  let lastProcessed := LastProcessedBlock (blockContainer p) in
  let latest := Number latestBlock in
  let maxBacklog := MaxBacklogSize (config p) in
  let startBlock :=
    if latest - maxBacklog >? lastProcessed
    then latest - maxBacklog
    else u64 (lastProcessed + 1) in
  startBlockOf lastProcessed latest maxBacklog = startBlock
  ∧ (lastProcessed < 2 ^ 64 - 1 →
     u64 (lastProcessed + 1) = lastProcessed + 1)
  ∧ getNewState fuel p latestBlock
    = match syncBatches fuel startBlock latestBlock
              (withContainer p (CleanState (blockContainer p))
                 CallCleanState) with
      | None => None
      | Some (Nil, p1) => Some (processLogs (addBlock p1 latestBlock))
      | Some r => Some r
      end
  ∧ startBlockOf 5 10050 10000 = 50.
Proof.
  intros Hlp Hlatest Hmax lastProcessed latest maxBacklog startBlock.
  assert (Hstart : startBlockOf lastProcessed latest maxBacklog
                   = startBlock).
  { subst startBlock. unfold startBlockOf, is_u64 in *.
    fold lastProcessed in Hlp. fold latest in Hlatest.
    fold maxBacklog in Hmax.
    destruct (Z.gtb_spec latest maxBacklog) as [Hgt | Hle]; cbn [andb].
    - rewrite (u64_small (latest - maxBacklog))
        by (unfold is_u64; lia).
      done.
    - destruct (Z.gtb_spec (latest - maxBacklog) lastProcessed);
        [lia | done]. }
  split; [exact Hstart |]. split; [| split].
  - intros Hlt. apply u64_small. unfold is_u64 in *.
    fold lastProcessed in Hlp. lia.
  - unfold getNewState. cbn [config withContainer].
    fold lastProcessed latest maxBacklog. by rewrite Hstart.
  - reflexivity.
Qed.

(** C6. The tracker is built with
    [lastProcessed = max(configuredStart − 1, durableWatermark)]: the
    watermark read from the store, unless the configured start block
    is positive and [configuredStart − 1] exceeds the watermark, in
    which case it is [configuredStart − 1]. *)
Theorem NewPolybftEventTracker_lastProcessed (cfg : PolybftTrackerConfig)
    (pr : P) (st st' : St) (sub : Sub) (durableWatermark : Z) :
  is_u64 (StartBlockFromConfig cfg) →
  is_u64 durableWatermark →
  GetLastProcessedBlock st = (Ok durableWatermark, st') →
  let configuredStart := StartBlockFromConfig cfg in
  ∃ p,
    NewPolybftEventTracker cfg pr st sub = Ok p
    ∧ LastProcessedBlock (blockContainer p)
      = Z.max (configuredStart - 1) durableWatermark
    ∧ LastProcessedBlock (blockContainer p)
      = (if (configuredStart >? 0)
            && (configuredStart - 1 >? durableWatermark)
         then configuredStart - 1
         else durableWatermark)
    ∧ blockContainer p
      = NewTrackerBlockContainer
          (Z.max (configuredStart - 1) durableWatermark).
Proof.
  intros Hstart Hw Hread configuredStart.
  unfold NewPolybftEventTracker. rewrite Hread.
  fold configuredStart. eexists. split; [reflexivity |].
  unfold is_u64 in *. fold configuredStart in Hstart.
  assert (Hdef :
    (if durableWatermark >?
        (if configuredStart >? 0 then u64 (configuredStart - 1) else 0)
     then durableWatermark
     else if configuredStart >? 0 then u64 (configuredStart - 1) else 0)
    = Z.max (configuredStart - 1) durableWatermark).
  { destruct (Z.gtb_spec configuredStart 0).
    - rewrite u64_small by (unfold is_u64; lia).
      destruct (Z.gtb_spec durableWatermark (configuredStart - 1)); lia.
    - destruct (Z.gtb_spec durableWatermark 0); lia. }
  cbn. rewrite Hdef. split; [done |]. split; [| done].
  destruct (Z.gtb_spec configuredStart 0); cbn [andb].
  - destruct (Z.gtb_spec (configuredStart - 1) durableWatermark); lia.
  - lia.
Qed.

(** *** The resync procedure *)

Lemma RemoveBlocks_lastCached c from to c' :
  RemoveBlocks c from to = Ok c' → lastCached c' = lastCached c.
Proof.
  unfold RemoveBlocks. case_bool_decide; [| done]. by intros [= <-].
Qed.

(** A pass of [processLogs] leaves the configuration and [lastCached]
    as they are. *)
Lemma processLogs_frame (p : tracker) :
  config (processLogs p).2 = config p
  ∧ lastCached (blockContainer (processLogs p).2)
    = lastCached (blockContainer p).
Proof.
  destruct (GetConfirmedBlocks (blockContainer p)
              (NumBlockConfirmations (config p)))
    as [| from rest] eqn:Hconf.
  { unfold processLogs. by rewrite Hconf. }
  split_pass p from rest Hconf.
  all: try
    (pose proof (filterLogs_forwards logs []
                   (withProvider p pr
                      (CallGetLogs
                         (getLogsQuery p from (rangeEnd from rest)) true)))
       as (fwd & Hp1 & _);
     rewrite Hfilter in Hp1; cbn in Hp1;
     destruct (forwardAll_frame fwd
                 (withProvider p pr
                    (CallGetLogs
                       (getLogsQuery p from (rangeEnd from rest)) true)))
       as (Hcfg & Hc & _);
     rewrite <- Hp1 in Hcfg, Hc; cbn in Hcfg, Hc).
  all: cbn; try (by rewrite ?Hcfg, ?Hc).
  split; [done |]. cbn in Hrm. rewrite Hc in Hrm.
  by apply RemoveBlocks_lastCached in Hrm.
Qed.

Lemma fetchBlocks_config n : ∀ j (p : tracker),
  config (fetchBlocks n j p).2 = config p.
Proof.
  induction n as [| n IH]; intros j p; cbn; [done |].
  destruct (GetBlockByNumber (toBlockNumber j) (provider p))
    as [[block | err] pr]; [| done].
  by rewrite IH.
Qed.

(** Fetching the blocks [j, j+1, ..., j+n-1], all below [bound], keeps
    [lastCached] below [bound]. *)
Lemma fetchBlocks_below bound n : ∀ j (p : tracker),
  servesRequested bound →
  0 <= j → j + Z.of_nat n <= bound →
  lastCached (blockContainer p) < bound →
  lastCached (blockContainer (fetchBlocks n j p).2) < bound.
Proof.
  induction n as [| n IH]; intros j p Hserves Hj Hn Hlc; cbn; [done |].
  destruct (GetBlockByNumber (toBlockNumber j) (provider p))
    as [[block | err] pr] eqn:Hget; [| done].
  apply IH; [done | lia | lia |].
  cbn. unfold AddBlock.
  assert (Number block = j) by (eapply Hserves; [lia | done]).
  destruct (Number block <=? lastCached (blockContainer p)); cbn; lia.
Qed.

Lemma syncBatches_below (latestBlock : Block) fuel :
  ∀ i (p : tracker) o p',
  servesRequested (Number latestBlock) →
  1 <= Number latestBlock < 2 ^ 64 →
  0 <= i →
  lastCached (blockContainer p) < Number latestBlock →
  syncBatches fuel i latestBlock p = Some (o, p') →
  lastCached (blockContainer p') < Number latestBlock.
Proof.
  induction fuel as [| fuel IH]; intros i p o p' Hserves HN Hi Hlc;
    cbn [syncBatches]; [done |].
  destruct (Z.leb_spec i (Number latestBlock)) as [Hle | Hgt];
    [| by intros [= <- <-]].
  set (end_ := if u64 (i + SyncBatchSize (config p)) >? Number latestBlock
               then u64 (Number latestBlock - 1)
               else u64 (i + SyncBatchSize (config p))).
  assert (Hend : end_ <= Number latestBlock).
  { subst end_.
    destruct (Z.gtb_spec (u64 (i + SyncBatchSize (config p)))
                (Number latestBlock)); [| done].
    rewrite u64_small by (unfold is_u64; lia). lia. }
  pose proof (fetchBlocks_below (Number latestBlock)
                (Z.to_nat (end_ - i)) i p Hserves Hi) as Hfetch.
  destruct (fetchBlocks (Z.to_nat (end_ - i)) i p) as [o1 p1].
  cbn in Hfetch.
  assert (Hlc1 : lastCached (blockContainer p1) < Number latestBlock)
    by (apply Hfetch; lia).
  destruct o1; try (by intros [= <- <-]).
  destruct (processLogs_frame p1) as [_ Hlc2].
  destruct (processLogs p1) as [o2 p2]. cbn in Hlc2.
  destruct o2; try (intros [= <- <-]; lia).
  apply IH; [done | done | apply u64_range | lia].
Qed.

Lemma syncBatches_config (latestBlock : Block) fuel :
  ∀ i (p : tracker) o p',
  syncBatches fuel i latestBlock p = Some (o, p') → config p' = config p.
Proof.
  induction fuel as [| fuel IH]; intros i p o p'; cbn [syncBatches];
    [done |].
  destruct (i <=? Number latestBlock); [| by intros [= <- <-]].
  match goal with
  | |- context [fetchBlocks ?n i p] =>
      pose proof (fetchBlocks_config n i p) as Hcfg1;
      destruct (fetchBlocks n i p) as [o1 p1]
  end.
  cbn in Hcfg1.
  destruct o1; try (by intros [= <- <-]).
  destruct (processLogs_frame p1) as [Hcfg2 _].
  destruct (processLogs p1) as [o2 p2]. cbn in Hcfg2.
  destruct o2; try (intros [= <- <-]; congruence).
  intros Hrec. apply IH in Hrec. congruence.
Qed.

(** With a positive batch size and no overflow at the end of the
    chain, the batch loop ends: more fuel than blocks left is enough. *)
Lemma syncBatches_ends (latestBlock : Block) fuel :
  ∀ i (p : tracker),
  0 < SyncBatchSize (config p) →
  Number latestBlock + SyncBatchSize (config p) < 2 ^ 64 →
  0 <= i →
  (Z.to_nat (Number latestBlock + 1 - i) < fuel)%nat →
  syncBatches fuel i latestBlock p ≠ None.
Proof.
  induction fuel as [| fuel IH]; intros i p Hbatch Hmax Hi Hfuel;
    cbn [syncBatches]; [lia |].
  destruct (Z.leb_spec i (Number latestBlock)) as [Hle | Hgt]; [| done].
  match goal with
  | |- context [fetchBlocks ?n i p] =>
      pose proof (fetchBlocks_config n i p) as Hcfg1;
      destruct (fetchBlocks n i p) as [o1 p1]
  end.
  cbn in Hcfg1. destruct o1; try done.
  destruct (processLogs_frame p1) as [Hcfg2 _].
  destruct (processLogs p1) as [o2 p2]. cbn in Hcfg2.
  destruct o2; try done.
  rewrite u64_small by (unfold is_u64; lia).
  apply IH; rewrite ?Hcfg2, ?Hcfg1; lia.
Qed.

Lemma startBlockOf_range lastProcessedBlock latestNumber maxBacklogSize :
  is_u64 (startBlockOf lastProcessedBlock latestNumber maxBacklogSize).
Proof.
  unfold startBlockOf.
  destruct (_ && _); apply u64_range.
Qed.

(** Duplicate delivery, in general.  A block whose number is at most
    [lastCached] is out of sync for the window, so [trackBlock] runs the
    resync procedure on it; the sequential append is not reached.  When
    the block is the one cached last (its number is [lastCached], above the
    watermark), the provider serves the blocks it is asked for and the
    resync returns without error, [lastCached] is again the number of
    that block.  The resync ends when the batch size is positive and
    the batches do not overflow 64 bits. *)
Theorem trackBlock_duplicate_resyncs (fuel : nat) (p : tracker)
    (block : Block) :
  Number block <= LastCachedBlock (blockContainer p) →
  trackBlock fuel p block = getNewState fuel p block
  ∧ (Number block = LastCachedBlock (blockContainer p) →
     0 <= LastProcessedBlock (blockContainer p) < Number block →
     Number block < 2 ^ 64 →
     servesRequested (Number block) →
     ∀ p', trackBlock fuel p block = Some (Nil, p') →
           LastCachedBlock (blockContainer p') = Number block)
  ∧ (0 < SyncBatchSize (config p) →
     0 <= Number block →
     Number block + SyncBatchSize (config p) < 2 ^ 64 →
     (Z.to_nat (Number block + 1) < fuel)%nat →
     trackBlock fuel p block ≠ None).
Proof.
  intros Hdup.
  assert (Htrack : trackBlock fuel p block = getNewState fuel p block).
  { unfold trackBlock, IsOutOfSync, LastCachedBlock in *.
    destruct (Z.eqb_spec (Number block)
                (lastCached (blockContainer p) + 1)); [lia | done]. }
  split; [exact Htrack |]. rewrite Htrack. split.
  - intros Hsame Hlp Hmax Hserves p'.
    unfold getNewState, LastProcessedBlock, LastCachedBlock in *.
    cbn [config withContainer].
    set (p0 := withContainer p (CleanState (blockContainer p))
                 CallCleanState).
    set (start := startBlockOf (lastProcessed (blockContainer p))
                    (Number block) (MaxBacklogSize (config p))).
    pose proof (syncBatches_below block fuel start p0) as Hbelow.
    destruct (syncBatches fuel start block p0) as [[o1 p1] |];
      [| done].
    assert (Hlc1 : lastCached (blockContainer p1) < Number block).
    { eapply Hbelow; [done | lia | apply startBlockOf_range
                      | cbn; lia | done]. }
    destruct o1; try (by intros [=]).
    intros [= Hpass].
    destruct (processLogs_frame (addBlock p1 block)) as [_ Hlc2].
    rewrite Hpass in Hlc2. cbn in Hlc2. rewrite Hlc2.
    unfold AddBlock.
    destruct (Z.leb_spec (Number block) (lastCached (blockContainer p1)));
      [lia | done].
  - intros Hbatch Hpos Hmax Hfuel.
    unfold getNewState. cbn [config withContainer].
    set (p0 := withContainer p (CleanState (blockContainer p))
                 CallCleanState).
    set (start := startBlockOf (LastProcessedBlock (blockContainer p))
                    (Number block) (MaxBacklogSize (config p))).
    pose proof (syncBatches_ends block fuel start p0) as Hends.
    destruct (syncBatches fuel start block p0) as [[[| err |] p1] |];
      try done.
    exfalso. apply Hends; try done.
    + apply startBlockOf_range.
    + pose proof (startBlockOf_range
                    (LastProcessedBlock (blockContainer p))
                    (Number block) (MaxBacklogSize (config p))) as Hr.
      fold start in Hr. unfold is_u64 in Hr. lia.
Qed.

(** *** Further properties of a pass of [processLogs] *)

(** X6. A pass of [processLogs] that does not return nil (an error of the
    provider, of the store or of the eviction, or a panic) leaves the
    window and the configuration as they were: the confirmed range is the
    same afterwards, so the next pass asks for the logs of the same
    range. *)
Theorem processLogs_failure_keeps_window (p : tracker) :
  (processLogs p).1 ≠ Nil →
  let p' := (processLogs p).2 in
  blockContainer p' = blockContainer p
  ∧ config p' = config p
  ∧ GetConfirmedBlocks (blockContainer p')
      (NumBlockConfirmations (config p'))
    = GetConfirmedBlocks (blockContainer p)
        (NumBlockConfirmations (config p))
  ∧ ∀ from to, getLogsQuery p' from to = getLogsQuery p from to.
Proof.
  intros Hfail p'.
  assert (Hc : blockContainer p' = blockContainer p).
  { subst p'.
    destruct (GetConfirmedBlocks (blockContainer p)
                (NumBlockConfirmations (config p)))
      as [| from rest] eqn:Hconf.
    { unfold processLogs in *. by rewrite Hconf in *. }
    destruct (processLogs_calls p from rest Hconf)
      as (ok & fwd & tail & _ & Hphase).
    destruct Hphase
      as [(_ & Hc & _) | [(_ & Hc & _) | [(_ & Hc & _)
          | [(_ & Hc & _) | (_ & _ & Ho)]]]]; done. }
  destruct (processLogs_frame p) as [Hcfg _]. fold p' in Hcfg.
  split; [done |]. split; [done |]. split.
  - by rewrite Hc, Hcfg.
  - intros from to. unfold getLogsQuery. by rewrite Hcfg.
Qed.

(** X7. When a pass over a non-empty confirmed range [[from, to]] returns
    nil, nothing was skipped: the provider returned the logs, none of
    them made the filter panic, the subscriber was given the accepted
    ones, the store took the watermark [to] and then, in the state that
    write left, the accepted logs, and the window is the one the eviction
    of [[from, to]] returned. *)
Theorem processLogs_nil_did_everything (p : tracker) (from : Z)
    (rest : list Z) :
  GetConfirmedBlocks (blockContainer p) (NumBlockConfirmations (config p))
  = from :: rest →
  (processLogs p).1 = Nil →
  let to := rangeEnd from rest in
  let p' := (processLogs p).2 in
  ∃ logs st1,
    let kept := List.filter (accepted (LogFilter (config p))) logs in
    GetLogs (getLogsQuery p from to) (provider p) = (Ok logs, provider p')
    ∧ Forall (λ log, indexesEmptyTopics (LogFilter (config p)) log = false)
        logs
    ∧ subscriber p' = foldl (λ sub log, AddLog log sub) (subscriber p) kept
    ∧ InsertLastProcessedBlock to (store p) = (None, st1)
    ∧ InsertLogs kept st1 = (None, store p')
    ∧ RemoveBlocks (blockContainer p) from to = Ok (blockContainer p').
Proof.
  intros Hconf Hnil to p'. subst to p'. revert Hnil.
  split_pass p from rest Hconf; cbn [fst snd]; try discriminate.
  intros _.
  set (p0 := withProvider p pr
               (CallGetLogs (getLogsQuery p from (rangeEnd from rest)) true))
    in *.
  assert (Hsafe : Forall
            (λ log, indexesEmptyTopics (LogFilter (config p)) log = false)
            logs).
  { destruct (first_unsafe (LogFilter (config p)) logs)
      as [Hall | (pre & bad & post & -> & Hpre & Hbad)]; [done |].
    rewrite (filterLogs_panics pre bad post [] p0 Hpre Hbad) in Hfilter.
    discriminate. }
  rewrite (filterLogs_accepted logs [] p0 Hsafe) in Hfilter.
  cbn [config withProvider p0] in Hfilter.
  injection Hfilter as <- <-.
  destruct (forwardAll_frame
              (List.filter (accepted (LogFilter (config p))) logs) p0)
    as (Hcfg & Hc & Hpr & Hst & _ & Hsub).
  cbn in Hwm, Hlogs, Hrm. rewrite Hst in Hwm. rewrite Hc in Hrm.
  exists logs, st1. cbn. rewrite Hpr, Hsub. cbn.
  repeat split; done.
Qed.

(** X8. The subscriber is served before anything is written.  When the
    fetched logs do not make the filter panic and the store refuses the
    watermark, the pass returns the error of the store after it has
    handed every accepted log to the subscriber; no log was written, the
    store is in the state the refused write left and the window is
    unchanged, so that the next pass forwards these logs again. *)
Theorem processLogs_forwards_before_writing (p : tracker) (from : Z)
    (rest : list Z) (logs : list Log) (pr : P) (err : error) (st : St) :
  GetConfirmedBlocks (blockContainer p) (NumBlockConfirmations (config p))
  = from :: rest →
  GetLogs (getLogsQuery p from (rangeEnd from rest)) (provider p)
  = (Ok logs, pr) →
  Forall (λ log, indexesEmptyTopics (LogFilter (config p)) log = false)
    logs →
  InsertLastProcessedBlock (rangeEnd from rest) (store p) = (Some err, st) →
  let kept := List.filter (accepted (LogFilter (config p))) logs in
  let p' := (processLogs p).2 in
  (processLogs p).1 = Err err
  ∧ subscriber p' = foldl (λ sub log, AddLog log sub) (subscriber p) kept
  ∧ store p' = st
  ∧ blockContainer p' = blockContainer p
  ∧ calls p'
    = calls p
      ++ CallGetLogs (getLogsQuery p from (rangeEnd from rest)) true
         :: (CallAddLog <$> kept)
      ++ [CallInsertLastProcessedBlock (rangeEnd from rest) false].
Proof.
  intros Hconf Hfetch Hsafe Hwrite kept p'. subst p'.
  unfold processLogs. rewrite Hconf. cbn zeta.
  change (default from (last (from :: rest))) with (rangeEnd from rest).
  rewrite Hfetch.
  set (p0 := withProvider p pr
               (CallGetLogs (getLogsQuery p from (rangeEnd from rest)) true)).
  rewrite (filterLogs_accepted logs [] p0 Hsafe).
  cbn [config withProvider p0 app]. fold kept.
  destruct (forwardAll_frame kept p0) as (_ & Hc & _ & Hst & Hcalls & Hsub).
  rewrite Hst. cbn [store withProvider p0]. rewrite Hwrite.
  cbn. rewrite Hc, Hsub, Hcalls. cbn.
  rewrite <- !app_assoc. done.
Qed.

(** X9. The watermark is not taken back.  When the store takes the
    watermark [to] and then refuses the logs, the pass returns the error
    of the log write with the store in the state that followed the
    watermark write: the watermark is written, the logs are not, and the
    window still holds the range. *)
Theorem processLogs_watermark_stays (p : tracker) (from : Z)
    (rest : list Z) (logs : list Log) (pr : P) (err : error)
    (st1 st2 : St) :
  GetConfirmedBlocks (blockContainer p) (NumBlockConfirmations (config p))
  = from :: rest →
  GetLogs (getLogsQuery p from (rangeEnd from rest)) (provider p)
  = (Ok logs, pr) →
  Forall (λ log, indexesEmptyTopics (LogFilter (config p)) log = false)
    logs →
  InsertLastProcessedBlock (rangeEnd from rest) (store p) = (None, st1) →
  InsertLogs (List.filter (accepted (LogFilter (config p))) logs) st1
  = (Some err, st2) →
  let p' := (processLogs p).2 in
  (processLogs p).1 = Err err
  ∧ store p' = st2
  ∧ blockContainer p' = blockContainer p
  ∧ GetConfirmedBlocks (blockContainer p')
      (NumBlockConfirmations (config p')) = from :: rest.
Proof.
  intros Hconf Hfetch Hsafe Hwrite Hlogs p'. subst p'.
  unfold processLogs. rewrite Hconf. cbn zeta.
  change (default from (last (from :: rest))) with (rangeEnd from rest).
  rewrite Hfetch.
  set (p0 := withProvider p pr
               (CallGetLogs (getLogsQuery p from (rangeEnd from rest)) true)).
  rewrite (filterLogs_accepted logs [] p0 Hsafe).
  cbn [config withProvider p0 app].
  set (kept := List.filter (accepted (LogFilter (config p))) logs) in *.
  destruct (forwardAll_frame kept p0) as (Hcfg & Hc & _ & Hst & _ & _).
  rewrite Hst. cbn [store withProvider p0]. rewrite Hwrite.
  cbn [store withStore]. rewrite Hlogs.
  cbn. rewrite Hc, Hcfg. cbn. by rewrite Hconf.
Qed.

(** *** Further properties of the resync *)

Lemma requests_app calls1 calls2 :
  requests (calls1 ++ calls2) = requests calls1 ++ requests calls2.
Proof.
  induction calls1 as [| call calls1 IH]; [done |].
  destruct call; cbn; by rewrite IH.
Qed.

Lemma requests_forwarded (fwd : list Log) : requests (CallAddLog <$> fwd) = [].
Proof. by induction fwd. Qed.

(** A pass of [processLogs] asks the provider for no block. *)
Lemma processLogs_requests (p : tracker) :
  requests (calls (processLogs p).2) = requests (calls p).
Proof.
  destruct (GetConfirmedBlocks (blockContainer p)
              (NumBlockConfirmations (config p)))
    as [| from rest] eqn:Hconf.
  { unfold processLogs. by rewrite Hconf. }
  destruct (processLogs_calls p from rest Hconf)
    as (ok & fwd & tail & -> & Hphase).
  rewrite requests_app. cbn [requests].
  rewrite requests_app, requests_forwarded. cbn.
  destruct Hphase
    as [(-> & _) | [(-> & _) | [(-> & _) | [(-> & _) | (-> & _)]]]];
    cbn; by rewrite app_nil_r.
Qed.

(** The inner loop asks for consecutive blocks from [j] on: for all [n]
    of them when it ends without error, for those up to the failed
    request otherwise. *)
Lemma fetchBlocks_requests n : ∀ j (p : tracker),
  ∃ k, (k <= n)%nat
       ∧ requests (calls (fetchBlocks n j p).2)
         = requests (calls p) ++ seqZ j (Z.of_nat k)
       ∧ ((fetchBlocks n j p).1 = Nil → k = n).
Proof.
  induction n as [| n IH]; intros j p; cbn [fetchBlocks].
  - exists 0%nat. cbn. by rewrite app_nil_r.
  - destruct (GetBlockByNumber (toBlockNumber j) (provider p))
      as [[block | err] pr].
    + destruct (IH (j + 1)
                  (addBlock (withProvider p pr (CallGetBlockByNumber j true))
                     block)) as (k & Hk & Hreq & Hnil).
      exists (S k). split; [lia |]. split.
      * rewrite Hreq. cbn [calls addBlock withContainer withProvider].
        rewrite !requests_app. cbn [requests].
        rewrite <- !app_assoc. cbn [app]. f_equal.
        rewrite (seqZ_cons j (Z.of_nat (S k))) by lia.
        do 2 f_equal; lia.
      * intros Ho. f_equal. by apply Hnil.
    + exists 1%nat. split; [lia |]. split; [| done].
      cbn. by rewrite requests_app.
Qed.

Lemma batch_end_below (i batch latest : Z) :
  1 <= latest < 2 ^ 64 →
  (if u64 (i + batch) >? latest then u64 (latest - 1) else u64 (i + batch))
  <= latest.
Proof.
  intros Hlatest.
  destruct (Z.gtb_spec (u64 (i + batch)) latest); [| done].
  rewrite u64_small by (unfold is_u64; lia). lia.
Qed.

Lemma syncBatches_requests_below (latestBlock : Block) fuel :
  ∀ i (p : tracker) o p',
  1 <= Number latestBlock < 2 ^ 64 →
  0 <= i →
  syncBatches fuel i latestBlock p = Some (o, p') →
  ∃ new, requests (calls p') = requests (calls p) ++ new
         ∧ Forall (λ j, 0 <= j < Number latestBlock) new.
Proof.
  induction fuel as [| fuel IH]; intros i p o p' HN Hi;
    cbn [syncBatches]; [done |].
  destruct (Z.leb_spec i (Number latestBlock)) as [Hle | Hgt].
  2: { intros [= <- <-]. exists []. by rewrite app_nil_r. }
  pose proof (batch_end_below i (SyncBatchSize (config p))
                (Number latestBlock) HN) as Hend.
  set (end_ := if u64 (i + SyncBatchSize (config p)) >? Number latestBlock
               then u64 (Number latestBlock - 1)
               else u64 (i + SyncBatchSize (config p))) in *.
  destruct (fetchBlocks_requests (Z.to_nat (end_ - i)) i p)
    as (k & Hk & Hreq & _).
  assert (Hnew : Forall (λ j, 0 <= j < Number latestBlock)
                   (seqZ i (Z.of_nat k))).
  { apply Forall_forall. intros j Hj%elem_of_seqZ. lia. }
  destruct (fetchBlocks (Z.to_nat (end_ - i)) i p) as [o1 p1].
  cbn [snd] in Hreq.
  destruct o1;
    try (intros [= <- <-]; exists (seqZ i (Z.of_nat k)); by split).
  pose proof (processLogs_requests p1) as Hpass.
  destruct (processLogs p1) as [o2 p2]. cbn [snd] in Hpass.
  destruct o2;
    try (intros [= <- <-]; exists (seqZ i (Z.of_nat k));
         split; [congruence | done]).
  intros Hrec.
  apply IH in Hrec as (new & Hreq' & Hnew'); [| done | apply u64_range].
  exists (seqZ i (Z.of_nat k) ++ new). split.
  - rewrite Hreq', Hpass, Hreq. by rewrite <- app_assoc.
  - by apply Forall_app.
Qed.

(** X10. The resync never asks the provider for the latest block, nor for
    any block above it: whatever the provider and the store answer and
    however the resync ends, the blocks [getNewState] requests are all
    below [latestBlock.Number]. *)
Theorem getNewState_never_requests_latest (fuel : nat) (p : tracker)
    (latestBlock : Block) (o : outcome) (p' : tracker) :
  1 <= Number latestBlock < 2 ^ 64 →
  getNewState fuel p latestBlock = Some (o, p') →
  ∃ new, requests (calls p') = requests (calls p) ++ new
         ∧ Forall (λ j, 0 <= j < Number latestBlock) new.
Proof.
  intros HN. unfold getNewState. cbn [config withContainer].
  set (p0 := withContainer p (CleanState (blockContainer p)) CallCleanState).
  set (start := startBlockOf (LastProcessedBlock (blockContainer p))
                  (Number latestBlock) (MaxBacklogSize (config p))).
  assert (Hp0 : requests (calls p0) = requests (calls p)).
  { cbn. rewrite requests_app. cbn. by rewrite app_nil_r. }
  pose proof (syncBatches_requests_below latestBlock fuel start p0) as Hloop.
  destruct (syncBatches fuel start latestBlock p0) as [[o1 p1] |]; [| done].
  destruct (Hloop o1 p1 HN) as (new & Hreq & Hnew);
    [apply startBlockOf_range | done |].
  rewrite Hp0 in Hreq.
  destruct o1; try (intros [= <- <-]; by exists new).
  intros [= Hpass]. exists new. split; [| done].
  pose proof (processLogs_requests (addBlock p1 latestBlock)) as Hlast.
  rewrite Hpass in Hlast. cbn [snd] in Hlast. rewrite Hlast.
  cbn. rewrite requests_app. cbn. by rewrite app_nil_r.
Qed.

Lemma fetchSchedule_step (i latest batch : Z) :
  0 < batch → i + batch <= latest →
  seqZ i batch ++ fetchSchedule (i + batch) latest batch
  = fetchSchedule i latest batch.
Proof.
  intros Hbatch Hle. unfold fetchSchedule.
  destruct (Z.gtb_spec (i + batch) latest); [lia |].
  destruct (Z.gtb_spec i latest); [lia |].
  replace (latest - i) with (latest - (i + batch) + 1 * batch) by lia.
  rewrite Z_mod_plus_full.
  destruct (Z.eqb_spec ((latest - (i + batch)) mod batch) 0) as [Hz | Hnz].
  - rewrite <- seqZ_app by lia. f_equal. lia.
  - assert (latest - (i + batch) ≠ 0)
      by (intros Hz; rewrite Hz in Hnz; by rewrite Z.mod_0_l in Hnz by lia).
    rewrite <- seqZ_app by lia. f_equal. lia.
Qed.

Lemma fetchSchedule_last (i latest batch : Z) :
  i <= latest < i + batch →
  seqZ i (Z.of_nat (Z.to_nat (latest - 1 - i)))
  = fetchSchedule i latest batch.
Proof.
  intros Hlast. unfold fetchSchedule.
  destruct (Z.gtb_spec i latest); [lia |].
  rewrite Z.mod_small by lia.
  destruct (Z.eqb_spec (latest - i) 0).
  - replace (Z.to_nat (latest - 1 - i)) with 0%nat by lia.
    replace (latest - i) with 0 by lia. done.
  - f_equal. lia.
Qed.

Lemma syncBatches_schedule (latestBlock : Block) fuel :
  ∀ i (p p' : tracker),
  0 < SyncBatchSize (config p) →
  1 <= Number latestBlock →
  Number latestBlock + SyncBatchSize (config p) < 2 ^ 64 →
  0 <= i →
  syncBatches fuel i latestBlock p = Some (Nil, p') →
  requests (calls p')
  = requests (calls p)
    ++ fetchSchedule i (Number latestBlock) (SyncBatchSize (config p)).
Proof.
  induction fuel as [| fuel IH]; intros i p p' Hbatch HN Hmax Hi;
    cbn [syncBatches]; [done |].
  destruct (Z.leb_spec i (Number latestBlock)) as [Hle | Hgt].
  2: { intros [= <-]. unfold fetchSchedule.
       destruct (Z.gtb_spec i (Number latestBlock)); [| lia].
       by rewrite app_nil_r. }
  rewrite (u64_small (i + SyncBatchSize (config p)))
    by (unfold is_u64; lia).
  destruct (Z.gtb_spec (i + SyncBatchSize (config p)) (Number latestBlock))
    as [Hcut | Hfull].
  - rewrite u64_small by (unfold is_u64; lia).
    destruct (fetchBlocks_requests
                (Z.to_nat (Number latestBlock - 1 - i)) i p)
      as (k & _ & Hreq & Hnil).
    destruct (fetchBlocks (Z.to_nat (Number latestBlock - 1 - i)) i p)
      as [o1 p1].
    cbn [fst snd] in Hreq, Hnil.
    destruct o1; try done. rewrite (Hnil eq_refl) in Hreq.
    pose proof (processLogs_requests p1) as Hpass.
    destruct (processLogs p1) as [o2 p2]. cbn [snd] in Hpass.
    destruct o2; try done.
    destruct fuel as [| fuel]; [done |]. cbn [syncBatches].
    destruct (Z.leb_spec (i + SyncBatchSize (config p)) (Number latestBlock));
      [lia |].
    intros [= <-]. rewrite Hpass, Hreq. f_equal.
    apply fetchSchedule_last. lia.
  - pose proof (fetchBlocks_config
                  (Z.to_nat (i + SyncBatchSize (config p) - i)) i p) as Hcfg1.
    destruct (fetchBlocks_requests
                (Z.to_nat (i + SyncBatchSize (config p) - i)) i p)
      as (k & _ & Hreq & Hnil).
    destruct (fetchBlocks (Z.to_nat (i + SyncBatchSize (config p) - i)) i p)
      as [o1 p1].
    cbn [fst snd] in Hreq, Hnil, Hcfg1.
    destruct o1; try done. rewrite (Hnil eq_refl) in Hreq.
    pose proof (processLogs_requests p1) as Hpass.
    destruct (processLogs_frame p1) as [Hcfg2 _].
    destruct (processLogs p1) as [o2 p2]. cbn [snd] in Hpass, Hcfg2.
    destruct o2; try done.
    intros Hrec. apply IH in Hrec; rewrite ?Hcfg2, ?Hcfg1; try lia.
    rewrite Hrec, Hpass, Hreq, Hcfg2, Hcfg1, <- app_assoc. f_equal.
    rewrite <- (fetchSchedule_step i) by lia. f_equal. f_equal. lia.
Qed.

(** X11. The blocks a resync fetches.  With a positive batch size and no
    overflow of 64 bits, a resync that returns nil has asked the provider
    for consecutive blocks from [startBlock] on, once each and in order:
    up to [latest - 1] when [latest - startBlock] is a multiple of the
    batch size, and up to [latest - 2] only when it is not, so that block
    [latest - 1] is then never requested. *)
Theorem getNewState_fetch_schedule (fuel : nat) (p : tracker)
    (latestBlock : Block) (p' : tracker) :
  0 < SyncBatchSize (config p) →
  1 <= Number latestBlock →
  Number latestBlock + SyncBatchSize (config p) < 2 ^ 64 →
  getNewState fuel p latestBlock = Some (Nil, p') →
  let startBlock :=
    startBlockOf (LastProcessedBlock (blockContainer p))
      (Number latestBlock) (MaxBacklogSize (config p)) in
  requests (calls p')
  = requests (calls p)
    ++ fetchSchedule startBlock (Number latestBlock)
         (SyncBatchSize (config p))
  ∧ (startBlock < Number latestBlock →
     (Number latestBlock - startBlock) mod SyncBatchSize (config p) ≠ 0 →
     Number latestBlock - 1
     ∉ fetchSchedule startBlock (Number latestBlock)
         (SyncBatchSize (config p))).
Proof.
  intros Hbatch HN Hmax Hrun startBlock. split.
  - revert Hrun. unfold getNewState. cbn [config withContainer].
    fold startBlock.
    set (p0 := withContainer p (CleanState (blockContainer p))
                 CallCleanState).
    pose proof (syncBatches_schedule latestBlock fuel startBlock p0)
      as Hloop.
    destruct (syncBatches fuel startBlock latestBlock p0) as [[o1 p1] |];
      [| done].
    destruct o1; try (by intros [=]).
    intros [= Hpass].
    pose proof (processLogs_requests (addBlock p1 latestBlock)) as Hlast.
    rewrite Hpass in Hlast. cbn [snd] in Hlast. rewrite Hlast.
    cbn [calls addBlock withContainer]. rewrite requests_app. cbn [requests].
    rewrite app_nil_r, (Hloop p1); try done.
    + cbn. rewrite requests_app. cbn. by rewrite app_nil_r.
    + apply startBlockOf_range.
  - intros Hlt Hmod. unfold fetchSchedule.
    destruct (Z.gtb_spec startBlock (Number latestBlock)); [lia |].
    destruct (Z.eqb_spec
                ((Number latestBlock - startBlock)
                   mod SyncBatchSize (config p)) 0); [done |].
    rewrite elem_of_seqZ. lia.
Qed.

(** X12. A batch size of 0 hangs the resync.  When [SyncBatchSize] is 0
    and the start block is not above the latest block, the batch loop
    makes no progress: [getNewState] never returns, whatever the fuel. *)
Theorem getNewState_zero_batch_never_returns (fuel : nat) (p : tracker)
    (latestBlock : Block) :
  SyncBatchSize (config p) = 0 →
  startBlockOf (LastProcessedBlock (blockContainer p))
    (Number latestBlock) (MaxBacklogSize (config p))
  <= Number latestBlock →
  getNewState fuel p latestBlock = None.
Proof.
  intros Hbatch Hstart. unfold getNewState. cbn [config withContainer].
  set (start := startBlockOf (LastProcessedBlock (blockContainer p))
                  (Number latestBlock) (MaxBacklogSize (config p))) in *.
  set (p0 := withContainer p (CleanState (blockContainer p)) CallCleanState).
  assert (Hloop : syncBatches fuel start latestBlock p0 = None);
    [| by rewrite Hloop].
  assert (Hidle : processLogs p0 = (Nil, p0)) by reflexivity.
  assert (Hcfg : SyncBatchSize (config p0) = 0) by exact Hbatch.
  pose proof (startBlockOf_range (LastProcessedBlock (blockContainer p))
                (Number latestBlock) (MaxBacklogSize (config p))) as Hrange.
  fold start in Hrange. clearbody start p0.
  induction fuel as [| fuel IH]; cbn [syncBatches]; [done |].
  destruct (Z.leb_spec start (Number latestBlock)); [| lia].
  rewrite Hcfg, Z.add_0_r, (u64_small start) by done.
  destruct (Z.gtb_spec start (Number latestBlock)); [lia |].
  rewrite Z.sub_diag.
  change (fetchBlocks (Z.to_nat 0) start p0) with (Nil, p0).
  cbv iota. by rewrite Hidle.
Qed.

(** *** Startup *)

(** X13. [syncOnStart] does its work once.  Once a call has returned,
    with nil, with an error of the provider or of the resync, or after a
    panic, the [once] is used up: every later call returns nil and
    leaves the tracker as it is, without asking the provider for
    anything. *)
Theorem syncOnStart_runs_once (Latest : Z) (fuel : nat)
    (s : Supervised P St Sub) (o : outcome) (s' : Supervised P St Sub) :
  syncOnStart Latest fuel s = Some (o, s') →
  onceDone s' = true
  ∧ (onceDone s = true → o = Nil ∧ s' = s)
  ∧ ∀ fuel', syncOnStart Latest fuel' s' = Some (Nil, s').
Proof.
  intros Hrun.
  assert (Hdone : onceDone s' = true
                  ∧ (onceDone s = true → o = Nil ∧ s' = s)).
  { revert Hrun. unfold syncOnStart.
    destruct (onceDone s) eqn:Honce; [by intros [= <- <-] |].
    destruct (GetBlockByNumber Latest (provider (eventTracker s)))
      as [[latestBlock | err] pr]; [| by intros [= <- <-]].
    destruct (negb _); [by intros [= <- <-] |].
    destruct (getNewState _ _ _) as [[o1 p1] |]; [| done].
    by intros [= <- <-]. }
  destruct Hdone as [Hdone Hsame]. split; [done |]. split; [done |].
  intros fuel'. unfold syncOnStart. by rewrite Hdone.
Qed.

(** X14. Live tracking asks the provider for no block.  When the
    delivered block is in sync with the window, [trackBlock] returns,
    whatever the fuel, the result of one pass of [processLogs] on the
    tracker to which the block was appended if its number is above
    [lastCached]; the resync does not run, no block is requested and the
    configuration is unchanged. *)
Theorem trackBlock_in_sync_requests_nothing (fuel : nat) (p : tracker)
    (block : Block) :
  IsOutOfSync (blockContainer p) block = false →
  let p1 :=
    if LastCachedBlock (blockContainer p) <? Number block
    then addBlock p block
    else p in
  trackBlock fuel p block = Some (processLogs p1)
  ∧ requests (calls (processLogs p1).2) = requests (calls p)
  ∧ config (processLogs p1).2 = config p.
Proof.
  intros Hsync p1. unfold trackBlock. rewrite Hsync. cbn [negb]. fold p1.
  assert (Hp1 : requests (calls p1) = requests (calls p)
                ∧ config p1 = config p).
  { subst p1. destruct (_ <? _); [| done].
    cbn. rewrite requests_app. cbn. by rewrite app_nil_r. }
  destruct Hp1 as [Hreq Hcfg].
  split; [done |].
  rewrite processLogs_requests.
  destruct (processLogs_frame p1) as [Hcfg' _].
  split; congruence.
Qed.

End WithCollaborators.

(** *** The sample runs *)

Ltac by_evaluation := apply (bool_decide_unpack _); vm_compute; reflexivity.

Lemma is_u64_literal z : (0 <=? z) && (z <? 2 ^ 64) = true → is_u64 z.
Proof. unfold is_u64. lia. Qed.

(** The test node serves the blocks it is asked for. *)
Lemma TestNode_serves bound :
  bound <= 2 ^ 63 → servesRequested (P := TestNode) bound.
Proof.
  intros Hbound j node node' block Hj. cbn.
  unfold toBlockNumber. destruct (Z.ltb_spec j (2 ^ 63)); [| lia].
  case_bool_decide; [done |]. by intros [= <- _].
Qed.

(** C1. The resync does not fetch every block of
    [[startBlock, latest.number)]: its last batch, when cut at the
    latest block, ends one block early.  In the example of the
    documentation of [SyncBatchSize] (last processed block 10, latest
    block 100, batches of 10) the resync succeeds, block 99 is never
    requested, and the cache holds 11..98 and 100, with a gap at 99. *)
Theorem getNewState_skips_block_before_latest :
  ∃ p',
    getNewState 20 resyncTracker (header 100) = Some (Nil, p')
    ∧ Number <$> cache (blockContainer p') = seqZ 11 88 ++ [100]
    ∧ (99 ∉ Number <$> cache (blockContainer p'))
    ∧ (∀ ok, CallGetBlockByNumber 99 ok ∉ calls p')
    ∧ CallGetBlockByNumber 98 true ∈ calls p'.
Proof.
  eexists. split; [vm_compute; reflexivity |].
  split; [vm_compute; reflexivity |].
  split; [by_evaluation |].
  split; [intros [|]; by_evaluation | by_evaluation].
Qed.


(** C4. The filter is not exact on every fetched log: a log without
    topics from a tracked contract stops the pass with a panic.  When the
    node returns such a log from contract 100 followed by a log of
    contract 100 whose [Topics[0]] is the accepted hash 7, that second
    log, although its address is a key of the table and its primary topic
    is accepted, is not forwarded to the subscriber and not handed to
    [InsertLogs]. *)
Theorem processLogs_panic_drops_accepted_log :
  let fetched := [mkLog 100 [] "anonymous"; mkLog 100 [7] "a"] in
  let matching := mkLog 100 [7] "a" in
  GetConfirmedBlocks (blockContainer noTopicTracker)
    (NumBlockConfirmations (config noTopicTracker)) = [1; 2; 3]
  ∧ GetLogs (getLogsQuery noTopicTracker 1 3) (provider noTopicTracker)
    = (Ok fetched, provider noTopicTracker)
  ∧ matching ∈ fetched
  ∧ LogFilter (config noTopicTracker) !! Address matching = Some [7; 8]
  ∧ Topics matching !! 0%nat = Some 7
  ∧ (processLogs noTopicTracker).1 = Panic
  ∧ subscriber (processLogs noTopicTracker).2 = []
  ∧ (∀ log, CallAddLog log ∉ calls (processLogs noTopicTracker).2)
  ∧ (∀ logs ok,
       CallInsertLogs logs ok ∉ calls (processLogs noTopicTracker).2).
Proof.
  assert (Hcalls : ∃ query,
            calls (processLogs noTopicTracker).2 = [CallGetLogs query true])
    by (eexists; vm_compute; reflexivity).
  destruct Hcalls as [query Hcalls].
  repeat split; try reflexivity.
  - by_evaluation.
  - intros log. rewrite Hcalls.
    intros [Heq | Hin]%elem_of_cons;
      [discriminate | by apply elem_of_nil in Hin].
  - intros logs ok. rewrite Hcalls.
    intros [Heq | Hin]%elem_of_cons;
      [discriminate | by apply elem_of_nil in Hin].
Qed.

Lemma trackBlock_duplicate_resyncs_witness :
  trackBlock 10 cachedThree (header 3) = getNewState 10 cachedThree (header 3)
  ∧ (∀ p', trackBlock 10 cachedThree (header 3) = Some (Nil, p') →
           LastCachedBlock (blockContainer p') = 3)
  ∧ trackBlock 10 cachedThree (header 3) ≠ None.
Proof.
  assert (Hdup : Number (header 3)
                 <= LastCachedBlock (blockContainer cachedThree))
    by (vm_compute; discriminate).
  destruct (trackBlock_duplicate_resyncs 10 cachedThree (header 3) Hdup)
    as (Hresync & Hsame & Hends).
  split; [exact Hresync |]. split.
  - apply Hsame.
    + reflexivity.
    + vm_compute. split; [discriminate | reflexivity].
    + reflexivity.
    + apply TestNode_serves. vm_compute. discriminate.
  - apply Hends.
    + reflexivity.
    + vm_compute. discriminate.
    + reflexivity.
    + vm_compute. lia.
Defined.

Lemma processLogs_writes_then_evicts_witness :
  ∃ new,
    calls (processLogs logsWriteDownTracker).2
    = calls logsWriteDownTracker ++ new
    ∧ ((CallInsertLastProcessedBlock 3 false ∈ new
        ∨ ∃ logs, CallInsertLogs logs false ∈ new) →
       blockContainer (processLogs logsWriteDownTracker).2
       = blockContainer logsWriteDownTracker).
Proof.
  destruct (processLogs_writes_then_evicts logsWriteDownTracker 1 [2; 3]
              ltac:(reflexivity))
    as (new & Hcalls & _ & _ & Hfailed & _).
  exists new. split; [exact Hcalls |].
  intros Hf. by apply Hfailed.
Defined.

Lemma processLogs_fetch_error_keeps_range_witness :
  (processLogs logsDownTracker).1 = Err "rpc: logs unavailable"
  ∧ GetConfirmedBlocks (blockContainer (processLogs logsDownTracker).2)
      (NumBlockConfirmations (config (processLogs logsDownTracker).2))
    = [1; 2; 3].
Proof.
  destruct (processLogs_fetch_error_keeps_range logsDownTracker 1 [2; 3]
              "rpc: logs unavailable" (provider logsDownTracker)
              ltac:(reflexivity) ltac:(reflexivity))
    as (Herr & _ & _ & _ & _ & _ & Hrange).
  split; [exact Herr | exact Hrange].
Defined.

Lemma processLogs_forwards_accepted_witness :
  subscriber (processLogs sampleTracker).2
  = foldl (λ sub log, AddLog log sub) []
      (List.filter (accepted sampleFilter) sampleLogs).
Proof.
  refine (proj1 (proj2 (proj2 (proj2
    (processLogs_forwards_accepted sampleTracker 1 [2; 3] sampleLogs
       (provider sampleTracker) ltac:(reflexivity) ltac:(reflexivity) _))))).
  repeat constructor; intros _; discriminate.
Defined.

Lemma processLogs_topic_index_unchecked_witness :
  (processLogs noTopicTracker).1 = Panic.
Proof.
  apply (processLogs_topic_index_unchecked noTopicTracker 1 [2; 3]
           [mkLog 100 [] "anonymous"; mkLog 100 [7] "a"]
           (provider noTopicTracker) ltac:(reflexivity) ltac:(reflexivity)).
  exists (mkLog 100 [] "anonymous").
  split; [left |]. split; [reflexivity |].
  exists 7, [8]. reflexivity.
Defined.

Lemma getNewState_start_block_witness :
  startBlockOf 5 10050 10000 = 50.
Proof.
  refine (proj1 (getNewState_start_block 0 staleTracker (header 10050)
                   _ _ _));
    apply is_u64_literal; reflexivity.
Defined.

Lemma NewPolybftEventTracker_lastProcessed_witness :
  ∃ p : TestTracker,
    NewPolybftEventTracker (mkConfig 100 2 10 10000 ∅)
      (mkNode [] [] false) (mkStore 40 [] false false) []
    = Ok p
    ∧ LastProcessedBlock (blockContainer p) = 99.
Proof.
  destruct (NewPolybftEventTracker_lastProcessed
              (mkConfig 100 2 10 10000 ∅) (mkNode [] [] false)
              (mkStore 40 [] false false) (mkStore 40 [] false false)
              ([] : list Log) 40)
    as (p & Hnew & Hmax & _).
  - apply is_u64_literal. reflexivity.
  - apply is_u64_literal. reflexivity.
  - reflexivity.
  - exists p. split; [exact Hnew | exact Hmax].
Defined.

(** *** Sample runs of the further properties *)

Lemma processLogs_failure_keeps_window_witness :
  blockContainer (processLogs logsWriteDownTracker).2
  = blockContainer logsWriteDownTracker.
Proof.
  refine (proj1 (processLogs_failure_keeps_window logsWriteDownTracker _)).
  vm_compute. discriminate.
Defined.

Lemma processLogs_nil_did_everything_witness :
  ∃ logs st1,
    GetLogs (getLogsQuery sampleTracker 1 3) (provider sampleTracker)
    = (Ok logs, provider (processLogs sampleTracker).2)
    ∧ InsertLastProcessedBlock 3 (store sampleTracker) = (None, st1)
    ∧ InsertLogs (List.filter (accepted sampleFilter) logs) st1
      = (None, store (processLogs sampleTracker).2).
Proof.
  destruct (processLogs_nil_did_everything sampleTracker 1 [2; 3]
              ltac:(reflexivity) ltac:(reflexivity))
    as (logs & st1 & Hget & _ & _ & Hwm & Hlogs & _).
  exists logs, st1. split; [exact Hget |]. split; [exact Hwm | exact Hlogs].
Defined.

Lemma processLogs_forwards_before_writing_witness :
  (processLogs watermarkDownTracker).1 = Err "store: watermark write failed"
  ∧ subscriber (processLogs watermarkDownTracker).2
    = foldl (λ sub log, AddLog log sub) []
        (List.filter (accepted sampleFilter) sampleLogs).
Proof.
  destruct (processLogs_forwards_before_writing watermarkDownTracker 1 [2; 3]
              sampleLogs (provider watermarkDownTracker)
              "store: watermark write failed" (store watermarkDownTracker)
              ltac:(reflexivity) ltac:(reflexivity)
              ltac:(repeat constructor) ltac:(reflexivity))
    as (Herr & Hsub & _).
  split; [exact Herr | exact Hsub].
Defined.

Lemma processLogs_watermark_stays_witness :
  (processLogs logsWriteDownTracker).1 = Err "store: log write failed"
  ∧ watermark (store (processLogs logsWriteDownTracker).2) = 3
  ∧ savedLogs (store (processLogs logsWriteDownTracker).2) = [].
Proof.
  destruct (processLogs_watermark_stays logsWriteDownTracker 1 [2; 3]
              sampleLogs (provider logsWriteDownTracker)
              "store: log write failed"
              (mkStore 3 [] false true) (mkStore 3 [] false true)
              ltac:(reflexivity) ltac:(reflexivity)
              ltac:(repeat constructor) ltac:(reflexivity)
              ltac:(reflexivity))
    as (Herr & Hst & _).
  split; [exact Herr |]. rewrite Hst. split; reflexivity.
Defined.

Lemma getNewState_never_requests_latest_witness :
  ∃ o p',
    getNewState 10 cachedThree (header 3) = Some (o, p')
    ∧ ∃ new, requests (calls p') = requests (calls cachedThree) ++ new
             ∧ Forall (λ j, 0 <= j < 3) new.
Proof.
  destruct (getNewState 10 cachedThree (header 3)) as [[o p'] |] eqn:Hrun.
  - exists o, p'. split; [reflexivity |].
    apply (getNewState_never_requests_latest 10 cachedThree (header 3) o p');
      [vm_compute; split; [discriminate | reflexivity] | exact Hrun].
  - vm_compute in Hrun. discriminate.
Defined.

Lemma getNewState_fetch_schedule_witness :
  ∃ p',
    getNewState 10 cachedThree (header 3) = Some (Nil, p')
    ∧ requests (calls p') = [1].
Proof.
  destruct (getNewState 10 cachedThree (header 3)) as [[o p'] |] eqn:Hrun;
    [| vm_compute in Hrun; discriminate].
  assert (Ho : o = Nil) by (vm_compute in Hrun; by injection Hrun as <- _).
  subst o. exists p'. split; [reflexivity |].
  apply (getNewState_fetch_schedule 10 cachedThree (header 3) p');
    [reflexivity | vm_compute; discriminate | reflexivity | exact Hrun].
Defined.

Lemma getNewState_zero_batch_never_returns_witness :
  getNewState 1000 zeroBatchTracker (header 9) = None.
Proof.
  apply getNewState_zero_batch_never_returns;
    [reflexivity | vm_compute; discriminate].
Defined.

Lemma syncOnStart_runs_once_witness :
  ∃ o s',
    syncOnStart (-1) 10 startingUp = Some (o, s')
    ∧ syncOnStart (-1) 10 s' = Some (Nil, s').
Proof.
  destruct (syncOnStart (-1) 10 startingUp) as [[o s'] |] eqn:Hrun;
    [| vm_compute in Hrun; discriminate].
  exists o, s'. split; [reflexivity |].
  apply (syncOnStart_runs_once (-1) 10 startingUp o s' Hrun).
Defined.

Lemma trackBlock_in_sync_requests_nothing_witness :
  trackBlock 0 cachedThree (header 4)
  = Some (processLogs (addBlock cachedThree (header 4)))
  ∧ requests (calls (processLogs (addBlock cachedThree (header 4))).2)
    = requests (calls cachedThree).
Proof.
  destruct (trackBlock_in_sync_requests_nothing 0 cachedThree (header 4)
              ltac:(reflexivity)) as (Hrun & Hreq & _).
  split; [exact Hrun | exact Hreq].
Defined.

End TrackerFacts.
